(** * Certificate provisioning of the elasticsearch operator

    A shallow embedding of [pkg/k8sutil/certs.go]: the descriptor
    generation ([generateConfig]), the provisioning run ([GenerateCerts]),
    the bundle assembly ([CreateCertsSecret]), the workspace cleanup
    ([cleanUp]) and the process pipeline ([pipeCommands]).

    The program is effectful throughout, so it is written in a small
    monad of Go computations over a [World]: the file system, the pipes,
    the secret store and the trace of the system calls made.  What the
    runtime and the external tools decide (binary lookup, the behaviour of
    a launched tool, the order in which [range] visits a map) is gathered
    in an [Env] the program is parametric in.  Processes of a pipeline are
    run one after the other, each on the complete output of the one
    before. *)

From stdpp Require Import base option list strings gmap sorting.
From Stdlib Require Import ZArith.

Open Scope string_scope.
Open Scope list_scope.

(* ===================================================================== *)
(** ** Data model of the descriptors (the structs of certs.go)           *)
(* ===================================================================== *)

Record key := mkKey {
  Algo : string;
  Size : Z
}.

(** The fields of [names] are O, OU, L, C, ST in the source; they carry a
    prefix here because [O] is the zero of [nat]. *)
Record names := mkNames {
  names_O  : string;
  names_OU : string;
  names_L  : string;
  names_C  : string;
  names_ST : string
}.

Record csr := mkCsr {
  CN    : string;
  Hosts : list string;
  Key   : key;
  Names : list names
}.

Record configDefault := mkConfigDefault {
  Usages : list string;
  Expiry : string
}.

Record configSigning := mkConfigSigning { Default : configDefault }.

Record caconfig := mkCaconfig { Signing : configSigning }.

(** *** encoding/json

    [json.Marshal] is library code.  Its result is kept as the JSON value
    it renders (field order and [omitempty] as the struct tags say), not
    as the escaped byte string. *)
#[warnings="-register-all"]
Inductive json :=
  | JStr (s : string)
  | JNum (n : Z)
  | JArr (l : list json)
  | JObj (fields : list (string * json)).

Definition omitempty (tag s : string) : list (string * json) :=
  if decide (s = "") then [] else [(tag, JStr s)].

Definition marshal_key (k : key) : json :=
  JObj [("algo", JStr (Algo k)); ("size", JNum (Size k))].

Definition marshal_names (n : names) : json :=
  JObj (omitempty "O" (names_O n) ++ omitempty "OU" (names_OU n)
        ++ omitempty "L" (names_L n) ++ omitempty "C" (names_C n)
        ++ omitempty "ST" (names_ST n)).

Definition marshal_csr (c : csr) : json :=
  JObj (omitempty "CN" (CN c)
        ++ [("hosts", JArr (JStr <$> Hosts c));
            ("key", marshal_key (Key c));
            ("names", JArr (marshal_names <$> Names c))]).

Definition marshal_caconfig (c : caconfig) : json :=
  JObj [("signing",
         JObj [("default",
                JObj [("usages", JArr (JStr <$> Usages (Default (Signing c))));
                      ("expiry", JStr (Expiry (Default (Signing c))))])])].

(** Member access on a JSON object. *)
Fixpoint assoc {A} (k : string) (l : list (string * A)) : option A :=
  match l with
  | [] => None
  | (k', v) :: l' => if decide (k' = k) then Some v else assoc k l'
  end.

Definition json_field (k : string) (j : json) : option json :=
  match j with
  | JObj fields => assoc k fields
  | _ => None
  end.

Fixpoint json_path (ks : list string) (j : json) : option json :=
  match ks with
  | [] => Some j
  | k :: ks' =>
      match json_field k j with
      | Some j' => json_path ks' j'
      | None => None
      end
  end.

(* ===================================================================== *)
(** ** The operating system as the program sees it                        *)
(* ===================================================================== *)

(** Every path of the source is [fmt.Sprintf("%s/<name>", dir)] (or
    [filepath.Join(dir, name)]) for a directory handed in by the caller:
    a path keeps the directory and the entry name apart. *)
Record path := mkPath { p_dir : string; p_name : string }.
Notation "d // n" := (mkPath d n) (at level 40, no associativity).

Global Instance path_eq_dec : EqDecision path.
Proof. solve_decision. Defined.

(** What a file holds: a marshalled descriptor or opaque bytes (PEM,
    keystores).  A nil slice and an empty one are both [Blob ""]. *)
Inductive content :=
  | Doc (j : json)
  | Blob (s : string).

Definition no_bytes : content := Blob "".

Inductive error :=
  | ErrNotExist (p : path)          (* ENOENT *)
  | ErrNoDir (d : string)           (* ENOENT on a directory *)
  | ErrIsDir (p : path)             (* EISDIR *)
  | ErrIO (p : path)                (* EIO while reading *)
  | ErrReaddir (d : string)         (* Readdirnames failed *)
  | ErrPermission (p : path)        (* EPERM on removal *)
  | ErrInvalid                      (* os.ErrInvalid: method on a nil File *)
  | ErrNotFound (exe : string)      (* exec.ErrNotFound *)
  | ErrStdoutSet                    (* exec: Stdout already set *)
  | ErrStarted                      (* exec: already started *)
  | ExitError (code : nat)          (* exec.ExitError *)
  | ErrAlreadyExists (ns name : string).

(** An entry of a directory.  [Faulty] is a file whose read fails after
    the given bytes; [pinned] entries refuse removal. *)
Inductive node :=
  | Regular (c : content)
  | Faulty (partial : content)
  | Subtree.

Record entry := mkEntry { e_node : node; e_pinned : bool }.

(** A directory lists its entries in directory order. *)
Record directory := mkDir {
  d_entries : list (string * entry);
  d_unlistable : bool
}.

Definition del_entry (name : string) (l : list (string * entry)) :=
  filter (λ x, x.1 ≠ name) l.

Fixpoint set_entry (name : string) (e : entry) (l : list (string * entry)) :=
  match l with
  | [] => [(name, e)]
  | (n, e') :: l' =>
      if decide (n = name) then (n, e) :: l' else (n, e') :: set_entry name e l'
  end.

(** Arguments of a command line: literals and paths. *)
Inductive arg :=
  | Lit (s : string)
  | File (p : path).

Global Instance arg_eq_dec : EqDecision arg.
Proof. solve_decision. Defined.

(** The system calls the program makes, in the order it makes them. *)
Inductive event :=
  | EvOpen (d : string)
  | EvRemoveAll (p : path)
  | EvCreate (p : path)
  | EvWrite (p : path) (c : content)
  | EvStart (exe : string) (args : list arg)
  | EvReadFile (p : path)
  | EvSecretCreate (ns name : string).

(** A pipe between two processes. [Idle]: no writer has run; [Fed d]: the
    writer ran and wrote [d]; [Shut]: both ends were closed. *)
Inductive pipe :=
  | Idle
  | Fed (d : string)
  | Shut.

Inductive stdin :=
  | InNull
  | InPipe (p : pipe).

Record Secret := mkSecret {
  s_name : string;
  s_data : gmap string content
}.

Record World := mkWorld {
  w_fs : gmap string directory;
  w_pipes : list pipe;
  w_secrets : gmap (string * string) Secret;
  w_log : list event
}.

Definition set_fs (f : gmap string directory) (w : World) : World :=
  mkWorld f (w_pipes w) (w_secrets w) (w_log w).
Definition set_pipes (p : list pipe) (w : World) : World :=
  mkWorld (w_fs w) p (w_secrets w) (w_log w).
Definition set_secrets (s : gmap (string * string) Secret) (w : World) : World :=
  mkWorld (w_fs w) (w_pipes w) s (w_log w).
Definition emit (e : event) (w : World) : World :=
  mkWorld (w_fs w) (w_pipes w) (w_secrets w) (w_log w ++ [e]).

(** *** The monad of Go code: state, and panics that unwind everything *)

Inductive outcome (A : Type) :=
  | Panic (msg : string)
  | Ret (a : A) (w : World).
Arguments Panic {A} msg.
Arguments Ret {A} a w.

Definition Go (A : Type) : Type := World → outcome A.

Definition ret {A} (a : A) : Go A := λ w, Ret a w.
Definition bind {A B} (m : Go A) (k : A → Go B) : Go B :=
  λ w, match m w with
       | Panic msg => Panic msg
       | Ret a w' => k a w'
       end.
Definition panic {A} (msg : string) : Go A := λ _, Panic msg.
Definition get : Go World := λ w, Ret w w.
Definition modify (f : World → World) : Go unit := λ w, Ret tt (f w).

Declare Scope go_scope.
Delimit Scope go_scope with go.
Notation "x ← y ; z" := (bind y (λ x, z))
  (at level 20, y at level 100, z at level 200, only parsing) : go_scope.
Notation "' x ← y ; z" := (bind y (λ x, z))
  (at level 20, x pattern, y at level 100, z at level 200, only parsing) : go_scope.
Notation "x ;; z" := (bind x (λ _, z))
  (at level 100, z at level 200, only parsing, right associativity) : go_scope.
(** [if err != nil { return err }] *)
Notation "'check!' y ; z" :=
  (bind y (λ err, match err with Some e => ret (Some e) | None => z end))
  (at level 20, y at level 100, z at level 200, only parsing) : go_scope.
Open Scope go_scope.

(** *** package os *)

Definition os_Open (d : string) : Go (option directory * option error) :=
  modify (emit (EvOpen d)) ;;
  w ← get;
  match w_fs w !! d with
  | Some dir => ret (Some dir, None)
  | None => ret (None, Some (ErrNoDir d))
  end.

Definition Readdirnames (d : string) (dir : directory)
  : list string * option error :=
  if d_unlistable dir then ([], Some (ErrReaddir d))
  else ((d_entries dir).*1, None).

Definition filepath_Join (d name : string) : path := d // name.

(** [os.RemoveAll]: nil when the path does not exist. *)
Definition os_RemoveAll (p : path) : Go (option error) :=
  modify (emit (EvRemoveAll p)) ;;
  w ← get;
  match w_fs w !! p_dir p with
  | None => ret None
  | Some dir =>
      match assoc (p_name p) (d_entries dir) with
      | None => ret None
      | Some e =>
          if e_pinned e then ret (Some (ErrPermission p))
          else
            modify (set_fs (<[p_dir p :=
                     mkDir (del_entry (p_name p) (d_entries dir))
                           (d_unlistable dir)]> (w_fs w))) ;;
            ret None
      end
  end.

(** [os.Create]: the file is created or truncated; the handle is nil on
    failure. *)
Definition os_Create (p : path) : Go (option path * option error) :=
  modify (emit (EvCreate p)) ;;
  w ← get;
  match w_fs w !! p_dir p with
  | None => ret (None, Some (ErrNoDir (p_dir p)))
  | Some dir =>
      match assoc (p_name p) (d_entries dir) with
      | Some (mkEntry Subtree _) => ret (None, Some (ErrIsDir p))
      | Some (mkEntry _ pin) =>
          modify (set_fs (<[p_dir p :=
                   mkDir (set_entry (p_name p) (mkEntry (Regular no_bytes) pin)
                                    (d_entries dir))
                         (d_unlistable dir)]> (w_fs w))) ;;
          ret (Some p, None)
      | None =>
          modify (set_fs (<[p_dir p :=
                   mkDir (set_entry (p_name p) (mkEntry (Regular no_bytes) false)
                                    (d_entries dir))
                         (d_unlistable dir)]> (w_fs w))) ;;
          ret (Some p, None)
      end
  end.

(** [File.Write] right after [os.Create]; on a nil handle it returns
    [os.ErrInvalid]. *)
Definition File_Write (f : option path) (data : content) : Go (option error) :=
  match f with
  | None => ret (Some ErrInvalid)
  | Some p =>
      modify (emit (EvWrite p data)) ;;
      w ← get;
      match w_fs w !! p_dir p with
      | None => ret (Some (ErrNoDir (p_dir p)))
      | Some dir =>
          match assoc (p_name p) (d_entries dir) with
          | Some (mkEntry (Regular _) pin) =>
              modify (set_fs (<[p_dir p :=
                       mkDir (set_entry (p_name p) (mkEntry (Regular data) pin)
                                        (d_entries dir))
                             (d_unlistable dir)]> (w_fs w))) ;;
              ret None
          | _ => ret (Some (ErrNotExist p))
          end
      end
  end.

(** [ioutil.ReadFile]: nil bytes when the file cannot be opened, the bytes
    read so far when reading fails. *)
Definition ioutil_ReadFile (p : path) : Go (content * option error) :=
  modify (emit (EvReadFile p)) ;;
  w ← get;
  match w_fs w !! p_dir p with
  | None => ret (no_bytes, Some (ErrNotExist p))
  | Some dir =>
      match assoc (p_name p) (d_entries dir) with
      | None => ret (no_bytes, Some (ErrNotExist p))
      | Some (mkEntry (Regular c) _) => ret (c, None)
      | Some (mkEntry (Faulty c) _) => ret (c, Some (ErrIO p))
      | Some (mkEntry Subtree _) => ret (no_bytes, Some (ErrIsDir p))
      end
  end.

(* ===================================================================== *)
(** ** cleanUp                                                            *)
(* ===================================================================== *)

Fixpoint cleanUp_range (dir : string) (names : list string) : Go (option error) :=
  match names with
  | [] => ret None
  | name :: rest =>
      check! os_RemoveAll (filepath_Join dir name);
      cleanUp_range dir rest
  end.

Definition cleanUp (dir : string) : Go (option error) :=
  '(d, err) ← os_Open dir;
  match d, err with
  | Some d, None =>
      let '(names, err) := Readdirnames dir d in
      match err with
      | Some e => ret (Some e)
      | None => cleanUp_range dir names
      end
  | _, Some e => ret (Some e)
  | None, None => ret (Some ErrInvalid)
  end.

(* ===================================================================== *)
(** ** What the runtime and the external tools decide                     *)
(* ===================================================================== *)

(** - [lookPath]: the error of [exec.LookPath] for a binary, if any;
    - [run_tool]: what a launched process does: given argv, its standard
      input and the file system, the file system it leaves, what it writes
      to standard output and its exit code;
    - [map_range]: the order in which a [range] over a map literal visits
      the entries (Go leaves it unspecified);
    - [secretName]: a constant of the package declared in another file. *)
Record Env := mkEnv {
  lookPath : string → option error;
  run_tool : string → list arg → stdin → gmap string directory
             → gmap string directory * (string * nat);
  map_range : list (string * string) → list (string * string);
  secretName : string
}.

(** *** package os/exec *)

(** [Args] holds argv, the name of the command included.  [Stdin] and
    [Stdout] are pipe numbers; [Process] is the exit code [Wait] will
    report, once the process was started. *)
Record Cmd := mkCmd {
  Path : string;
  Args : list arg;
  lookPathErr : option error;
  Stdin : option nat;
  Stdout : option nat;
  Process : option nat
}.

Definition set_Stdin (r : option nat) (c : Cmd) : Cmd :=
  mkCmd (Path c) (Args c) (lookPathErr c) r (Stdout c) (Process c).
Definition set_Stdout (p : option nat) (c : Cmd) : Cmd :=
  mkCmd (Path c) (Args c) (lookPathErr c) (Stdin c) p (Process c).
Definition set_Process (code : nat) (c : Cmd) : Cmd :=
  mkCmd (Path c) (Args c) (lookPathErr c) (Stdin c) (Stdout c) (Some code).

Definition set_pipe (id : option nat) (p : pipe) : Go unit :=
  match id with
  | None => ret tt
  | Some i => modify (λ w, set_pipes (<[i := p]> (w_pipes w)) w)
  end.

Definition read_end (w : World) (id : option nat) : stdin :=
  match id with
  | None => InNull
  | Some i => InPipe (default Shut (w_pipes w !! i))
  end.

Definition errOf {A} (m : Go (A * option error)) : Go (option error) :=
  '(_, err) ← m; ret err.

Section Program.

Variable env : Env.

Definition exec_Command (name : string) (args : list arg) : Cmd :=
  mkCmd name (Lit name :: args) (lookPath env name) None None None.

(** [StdoutPipe]: a fresh pipe whose write end becomes the command's
    standard output; the read end is returned. *)
Definition Cmd_StdoutPipe (c : Cmd) : Go (Cmd * option nat * option error) :=
  match Stdout c, Process c with
  | Some _, _ => ret (c, None, Some ErrStdoutSet)
  | None, Some _ => ret (c, None, Some ErrStarted)
  | None, None =>
      w ← get;
      let id := length (w_pipes w) in
      modify (set_pipes (w_pipes w ++ [Idle])) ;;
      ret (set_Stdout (Some id) c, Some id, None)
  end.

(** The part [Start] and [Output] share: the launch itself.  A failed
    lookup closes the descriptors of the command. *)
Definition launch (c : Cmd) : Go (Cmd * string * option error) :=
  modify (emit (EvStart (Path c) (Args c))) ;;
  match lookPathErr c, Process c with
  | Some e, _ => set_pipe (Stdout c) Shut ;; ret (c, "", Some e)
  | None, Some _ => ret (c, "", Some ErrStarted)
  | None, None =>
      w ← get;
      let '(fs, (out, code)) :=
        run_tool env (Path c) (Args c) (read_end w (Stdin c)) (w_fs w) in
      modify (set_fs fs) ;;
      ret (set_Process code c, out, None)
  end.

Definition Cmd_Start (c : Cmd) : Go (Cmd * option error) :=
  '(c, out, err) ← launch c;
  match err with
  | Some e => ret (c, Some e)
  | None => set_pipe (Stdout c) (Fed out) ;; ret (c, None)
  end.

(** [Output]: run the command to its end and return what it wrote. *)
Definition Cmd_Output (c : Cmd) : Go (string * option error) :=
  match Stdout c with
  | Some _ => ret ("", Some ErrStdoutSet)
  | None =>
      '(c, out, err) ← launch c;
      match err, Process c with
      | Some e, _ => ret ("", Some e)
      | None, Some (S code) => ret (out, Some (ExitError (S code)))
      | None, _ => ret (out, None)
      end
  end.

(* ===================================================================== *)
(** ** pipeCommands                                                       *)
(* ===================================================================== *)

(** The loop over [commands[:len(commands)-1]], from index [i], [n]
    iterations to go.  The result of [Start] is dropped, as in the
    source. *)
Fixpoint pipeCommands_range (i n : nat) (commands : list Cmd)
  : Go (list Cmd * option error) :=
  match n with
  | 0 => ret (commands, None)
  | S n' =>
      match commands !! i, commands !! S i with
      | Some command, Some next =>
          '(command, out, err) ← Cmd_StdoutPipe command;
          match err with
          | Some e => ret (commands, Some e)
          | None =>
              '(command, _) ← Cmd_Start command;
              pipeCommands_range (S i) n'
                (<[S i := set_Stdin out next]> (<[i := command]> commands))
          end
      | _, _ => panic "index out of range"
      end
  end.

Definition pipeCommands (commands : list Cmd) : Go (string * option error) :=
  match commands with
  | [] => panic "slice bounds out of range [:-1]"
  | _ =>
      '(commands, err) ← pipeCommands_range 0 (length commands - 1) commands;
      match err with
      | Some e => ret ("", Some e)
      | None =>
          match commands !! (length commands - 1) with
          | None => panic "index out of range"
          | Some last =>
              '(final, err) ← Cmd_Output last;
              match err with
              | Some e => ret ("", Some e)
              | None => ret (final, None)
              end
          end
      end
  end.

(* ===================================================================== *)
(** ** generateConfig                                                     *)
(* ===================================================================== *)

Definition caConfig : caconfig :=
  mkCaconfig (mkConfigSigning (mkConfigDefault
    ["signing"; "key encipherment"; "server auth"; "client auth"]
    "8760h")).

Definition caCSR (namespace clusterName : string) : csr :=
  mkCsr ""
    ["localhost";
     "elasticsearch-" +:+ clusterName;
     ("elasticsearch-" +:+ clusterName) +:+ "." +:+ namespace;
     ("elasticsearch-" +:+ clusterName) +:+ "." +:+ namespace
        +:+ ".svc.cluster.local"]
    (mkKey "rsa" 2048)
    [mkNames "elasticsearch-operator" "k8s" "Pittsburgh" "US" "Pennsylvania"].

(** The [req] of the loop body, for the map key [k]. *)
Definition leafCSR (k namespace clusterName : string) : csr :=
  mkCsr k
    ["localhost";
     k +:+ "-" +:+ clusterName;
     (k +:+ "-" +:+ clusterName) +:+ "." +:+ namespace;
     (k +:+ "-" +:+ clusterName) +:+ "." +:+ namespace +:+ ".svc.cluster.local"]
    (mkKey "rsa" 2048)
    [mkNames "autogenerated" "elasticsearch cluster" "operator" "" ""].

(** The map literal the loop ranges over. *)
Definition leafFiles : list (string * string) :=
  [("node", "req-node-csr.json");
   ("sgadmin", "req-sgadmin-csr.json");
   ("kibana", "req-kibana-csr.json");
   ("cerebro", "req-cerebro-csr.json")].

Fixpoint generateConfig_range (configDir namespace clusterName : string)
  (kvs : list (string * string)) : Go (option error) :=
  match kvs with
  | [] => ret None
  | (k, v) :: rest =>
      let req := leafCSR k namespace clusterName in
      let configJSON := marshal_csr req in
      '(f, _) ← os_Create (configDir // v);
      check! File_Write f (Doc configJSON);
      generateConfig_range configDir namespace clusterName rest
  end.

(** [json.Marshal] cannot fail on these structs, so its error branch is
    not taken; the error of [os.Create] is overwritten by the one of
    [Write]. *)
Definition generateConfig (configDir certsDir namespace clusterName : string)
  : Go (option error) :=
  let caConfigJSON := marshal_caconfig caConfig in
  '(f, _) ← os_Create (configDir // "ca-config.json");
  check! File_Write f (Doc caConfigJSON);
  let reqCACSRJSON := marshal_csr (caCSR namespace clusterName) in
  '(f, _) ← os_Create (configDir // "ca-csr.json");
  check! File_Write f (Doc reqCACSRJSON);
  generateConfig_range configDir namespace clusterName (map_range env leafFiles).

(* ===================================================================== *)
(** ** GenerateCerts                                                      *)
(* ===================================================================== *)

Definition leafCommands (configDir certsDir name : string) : list Cmd :=
  [exec_Command "cfssl"
     [Lit "gencert"; Lit "-ca"; File (certsDir // "ca.pem");
      Lit "-ca-key"; File (certsDir // "ca-key.pem");
      Lit "-config"; File (configDir // "ca-config.json");
      Lit "-profile=server";
      File (configDir // ("req-" +:+ name +:+ "-csr.json"))];
   exec_Command "cfssljson" [Lit "-bare"; File (certsDir // name)]].

Fixpoint GenerateCerts_range (configDir certsDir : string) (l : list string)
  : Go (option error) :=
  match l with
  | [] => ret None
  | name :: rest =>
      check! errOf (pipeCommands (leafCommands configDir certsDir name));
      GenerateCerts_range configDir certsDir rest
  end.

Definition cmdConvertNodePkcs8 (certsDir : string) : Cmd :=
  exec_Command "openssl"
    [Lit "pkcs8"; Lit "-topk8"; Lit "-in"; File (certsDir // "node-key.pem");
     Lit "-out"; File (certsDir // "node-key.pkcs8.pem"); Lit "-nocrypt"].

Definition cmdConvertSgadmin (certsDir : string) : Cmd :=
  exec_Command "openssl"
    [Lit "pkcs12"; Lit "-export"; Lit "-inkey"; File (certsDir // "sgadmin-key.pem");
     Lit "-in"; File (certsDir // "sgadmin.pem");
     Lit "-out"; File (certsDir // "sgadmin.pkcs12");
     Lit "-password"; Lit "pass:changeit";
     Lit "-certfile"; File (certsDir // "ca.pem")].

Definition cmdConvertNode (certsDir : string) : Cmd :=
  exec_Command "openssl"
    [Lit "pkcs12"; Lit "-export"; Lit "-inkey"; File (certsDir // "node-key.pem");
     Lit "-in"; File (certsDir // "node.pem");
     Lit "-out"; File (certsDir // "node.pkcs12");
     Lit "-password"; Lit "pass:changeit";
     Lit "-certfile"; File (certsDir // "ca.pem")].

Definition cmdCAJKS (certsDir : string) : Cmd :=
  exec_Command "keytool"
    [Lit "-import"; Lit "-file"; File (certsDir // "ca.pem");
     Lit "-alias"; Lit "root-ca";
     Lit "-keystore"; File (certsDir // "truststore.jks");
     Lit "-storepass"; Lit "changeit"; Lit "-srcstoretype"; Lit "pkcs12";
     Lit "-noprompt"].

Definition cmdSgadminJKS (certsDir : string) : Cmd :=
  exec_Command "keytool"
    [Lit "-importkeystore"; Lit "-srckeystore"; File (certsDir // "sgadmin.pkcs12");
     Lit "-srcalias"; Lit "1";
     Lit "-destkeystore"; File (certsDir // "sgadmin-keystore.jks");
     Lit "-storepass"; Lit "changeit"; Lit "-srcstoretype"; Lit "pkcs12";
     Lit "-srcstorepass"; Lit "changeit";
     Lit "-destalias"; Lit "elasticsearch-admin"].

Definition cmdNodeJKS (certsDir : string) : Cmd :=
  exec_Command "keytool"
    [Lit "-importkeystore"; Lit "-srckeystore"; File (certsDir // "node.pkcs12");
     Lit "-srcalias"; Lit "1";
     Lit "-destkeystore"; File (certsDir // "node-keystore.jks");
     Lit "-storepass"; Lit "changeit"; Lit "-srcstoretype"; Lit "pkcs12";
     Lit "-srcstorepass"; Lit "changeit";
     Lit "-destalias"; Lit "elasticsearch-node"].

Definition GenerateCerts (configDir certsDir namespace clusterName : string)
  : Go (option error) :=
  (* Remove any existing config/certs *)
  cleanUp certsDir ;;
  cleanUp configDir ;;
  (* Generate new config *)
  check! generateConfig configDir certsDir namespace clusterName;
  (* Generate CA Cert *)
  let cmdCA1 := exec_Command "cfssl"
    [Lit "gencert"; Lit "-initca"; File (configDir // "ca-csr.json")] in
  let cmdCA2 := exec_Command "cfssljson" [Lit "-bare"; File (certsDir // "ca")] in
  check! errOf (pipeCommands [cmdCA1; cmdCA2]);
  (* Generate client Certs *)
  check! GenerateCerts_range configDir certsDir
           ["node"; "kibana"; "cerebro"; "sgadmin"];
  check! errOf (Cmd_Output (cmdConvertNodePkcs8 certsDir));
  check! errOf (Cmd_Output (cmdConvertSgadmin certsDir));
  check! errOf (Cmd_Output (cmdConvertNode certsDir));
  check! errOf (Cmd_Output (cmdCAJKS certsDir));
  check! errOf (Cmd_Output (cmdSgadminJKS certsDir));
  check! errOf (Cmd_Output (cmdNodeJKS certsDir));
  ret None.

(* ===================================================================== *)
(** ** CreateCertsSecret                                                  *)
(* ===================================================================== *)

(** The secret store of the cluster, for [Secrets(namespace).Create]. *)
Definition Secrets_Create (namespace : string) (secret : Secret)
  : Go (option error) :=
  modify (emit (EvSecretCreate namespace (s_name secret))) ;;
  w ← get;
  match w_secrets w !! (namespace, s_name secret) with
  | Some _ => ret (Some (ErrAlreadyExists namespace (s_name secret)))
  | None =>
      modify (set_secrets (<[(namespace, s_name secret) := secret]> (w_secrets w))) ;;
      ret None
  end.

Definition CreateCertsSecret (namespace clusterName certsDir : string)
  : Go (option error) :=
  (* Read certs from disk *)
  '(nodeKeyStore, err) ← ioutil_ReadFile (certsDir // "node-keystore.jks");
  match err with Some e => ret (Some e) | None =>
  '(sgadminKeyStore, err) ← ioutil_ReadFile (certsDir // "sgadmin-keystore.jks");
  match err with Some e => ret (Some e) | None =>
  '(trustStore, _) ← ioutil_ReadFile (certsDir // "truststore.jks");
  '(ca, _) ← ioutil_ReadFile (certsDir // "ca.pem");
  '(caKey, _) ← ioutil_ReadFile (certsDir // "ca-key.pem");
  '(node, _) ← ioutil_ReadFile (certsDir // "node.pem");
  '(nodeKey, _) ← ioutil_ReadFile (certsDir // "node-key.pem");
  '(nodeKeyPkcs8, _) ← ioutil_ReadFile (certsDir // "node-key.pkcs8.pem");
  '(sgadmin, _) ← ioutil_ReadFile (certsDir // "sgadmin.pem");
  '(sgadminKey, _) ← ioutil_ReadFile (certsDir // "sgadmin-key.pem");
  '(kibanaKey, _) ← ioutil_ReadFile (certsDir // "kibana-key.pem");
  '(kibana, _) ← ioutil_ReadFile (certsDir // "kibana.pem");
  '(cerebroKey, _) ← ioutil_ReadFile (certsDir // "cerebro-key.pem");
  '(cerebro, _) ← ioutil_ReadFile (certsDir // "cerebro.pem");
  let secret :=
    mkSecret (secretName env +:+ "-" +:+ clusterName)
      (list_to_map
         [("node-keystore.jks", nodeKeyStore);
          ("sgadmin-keystore.jks", sgadminKeyStore);
          ("truststore.jks", trustStore);
          ("ca.pem", ca);
          ("ca-key.pem", caKey);
          ("node.pem", node);
          ("node-key.pem", nodeKey);
          ("node-key.pkcs8.pem", nodeKeyPkcs8);
          ("sgadmin.pem", sgadmin);
          ("sgadmin-key.pem", sgadminKey);
          ("kibana-key.pem", kibanaKey);
          ("kibana.pem", kibana);
          ("cerebro-key.pem", cerebroKey);
          ("cerebro.pem", cerebro)]) in
  check! Secrets_Create namespace secret;
  ret None
  end end.

End Program.

(* ===================================================================== *)
(** ** CertsSecretExists and DeleteCertsSecret                            *)
(* ===================================================================== *)

(** [Secrets(namespace).Get] and [Delete] of the cluster's secret store.
    On a miss [Get] returns an empty secret with the error.  The store's
    not-found error is written [ErrNotExist] on the pair of namespace and
    name.  The trace has no event for these two calls. *)
Definition Secrets_Get (namespace name : string) : Go (Secret * option error) :=
  w ← get;
  match w_secrets w !! (namespace, name) with
  | Some s => ret (s, None)
  | None => ret (mkSecret "" ∅, Some (ErrNotExist (namespace // name)))
  end.

Definition Secrets_Delete (namespace name : string) : Go (option error) :=
  w ← get;
  match w_secrets w !! (namespace, name) with
  | Some _ =>
      modify (set_secrets (delete (namespace, name) (w_secrets w))) ;;
      ret None
  | None => ret (Some (ErrNotExist (namespace // name)))
  end.

Section Store.

Variable env : Env.

Definition CertsSecretExists (namespace clusterName : string) : Go bool :=
  '(secret, err) ← Secrets_Get namespace (secretName env +:+ "-" +:+ clusterName);
  match err with
  | Some _ => ret false
  | None =>
      if Nat.ltb 0 (String.length (s_name secret)) then ret true
      else ret false
  end.

Definition DeleteCertsSecret (namespace clusterName : string) : Go (option error) :=
  Secrets_Delete namespace (secretName env +:+ "-" +:+ clusterName).

End Store.

(* ===================================================================== *)
(** ** A reference environment                                            *)
(* ===================================================================== *)

(** Stand-ins for cfssl, cfssljson, openssl and keytool that read and
    write the files their command lines name.  The theorems below hold for
    every environment; this one supplies the concrete runs. *)

Fixpoint after_flag (flag : string) (args : list arg) : option arg :=
  match args with
  | [] => None
  | a :: rest =>
      match a, rest with
      | Lit f, b :: _ => if decide (f = flag) then Some b else after_flag flag rest
      | _, _ => after_flag flag rest
      end
  end.

Definition file_after (flag : string) (args : list arg) : option path :=
  match after_flag flag args with
  | Some (File p) => Some p
  | _ => None
  end.

Definition has_file (fs : gmap string directory) (p : path) : bool :=
  match fs !! p_dir p with
  | Some dir =>
      match assoc (p_name p) (d_entries dir) with
      | Some (mkEntry (Regular _) _) => true
      | _ => false
      end
  | None => false
  end.

Definition put_file (p : path) (c : content) (fs : gmap string directory)
  : gmap string directory :=
  match fs !! p_dir p with
  | Some dir =>
      <[p_dir p := mkDir (set_entry (p_name p) (mkEntry (Regular c) false)
                                    (d_entries dir))
                         (d_unlistable dir)]> fs
  | None => fs
  end.

(** Convert the file after [src] into the file after [dst]. *)
Definition convert (label src dst : string) (args : list arg)
  (fs : gmap string directory) : gmap string directory * (string * nat) :=
  match file_after src args, file_after dst args with
  | Some i, Some o =>
      if has_file fs i && bool_decide (is_Some (fs !! p_dir o))
      then (put_file o (Blob (label +:+ ":" +:+ p_name i)) fs, ("", 0))
      else (fs, ("", 1))
  | _, _ => (fs, ("", 1))
  end.

Definition std_tools (exe : string) (args : list arg) (input : stdin)
  (fs : gmap string directory) : gmap string directory * (string * nat) :=
  if decide (exe = "cfssl") then
    match last args with
    | Some (File p) =>
        if has_file fs p then (fs, ("signed:" +:+ p_name p, 0)) else (fs, ("", 1))
    | _ => (fs, ("", 1))
    end
  else if decide (exe = "cfssljson") then
    match input, file_after "-bare" args with
    | InPipe (Fed (String a d)), Some p =>
        if bool_decide (is_Some (fs !! p_dir p)) then
          (put_file (p_dir p // (p_name p +:+ ".pem")) (Blob "cert")
             (put_file (p_dir p // (p_name p +:+ "-key.pem")) (Blob "key")
                (put_file (p_dir p // (p_name p +:+ ".csr")) (Blob "csr") fs)),
           ("", 0))
        else (fs, ("", 1))
    | _, _ => (fs, ("", 1))
    end
  else if decide (exe = "openssl") then
    convert "openssl" "-in" "-out" args fs
  else if decide (exe = "keytool") then
    if decide (Lit "-import" ∈ args)
    then convert "jks" "-file" "-keystore" args fs
    else convert "jks" "-srckeystore" "-destkeystore" args fs
  else if decide (exe = "echo") then
    (fs, ("hello", 0))
  else (fs, ("", 127)).

Definition std_env : Env :=
  mkEnv (λ exe, if decide (exe = "missing-tool") then Some (ErrNotFound exe) else None)
        std_tools id "es-certs".

(** The same, on a machine without keytool. *)
Definition env_without_keytool : Env :=
  mkEnv (λ exe, if decide (exe = "keytool") then Some (ErrNotFound exe) else None)
        std_tools id "es-certs".

Definition empty_dir : directory := mkDir [] false.

Definition file (c : string) : entry := mkEntry (Regular (Blob c)) false.

(** Two empty working directories. *)
Definition w_clean : World :=
  mkWorld {[ "/cfg" := empty_dir; "/certs" := empty_dir ]} [] ∅ [].

(** A certs directory with stale artifacts, one of which cannot be
    removed. *)
Definition w_stale : World :=
  mkWorld {[ "/cfg" := empty_dir;
             "/certs" := mkDir [("old.pem", file "x");
                                ("node-keystore.jks", mkEntry (Regular (Blob "stale")) true);
                                ("tmp", mkEntry Subtree false)] false ]}
          [] ∅ [].

(** No configuration directory. *)
Definition w_nocfg : World :=
  mkWorld {[ "/certs" := empty_dir ]} [] ∅ [].

(** A certs directory as a run leaves it, but for [kibana.pem] and the
    trust store; and one that lacks the node keystore. *)
Definition w_partial : World :=
  mkWorld {[ "/certs" := mkDir [("node-keystore.jks", file "nks");
                                ("sgadmin-keystore.jks", file "aks");
                                ("ca.pem", file "ca");
                                ("node.pem", file "n")] false ]}
          [] ∅ [].

Definition w_nokeystore : World :=
  mkWorld {[ "/certs" := mkDir [("sgadmin-keystore.jks", file "aks");
                                ("ca.pem", file "ca")] false ]}
          [] ∅ [].

(** A directory of removable entries. *)
Definition w_used : World :=
  mkWorld {[ "/certs" := mkDir [("ca.pem", file "a"); ("ca-key.pem", file "b");
                                ("tmp", mkEntry Subtree false)] false ]}
          [] ∅ [].

(* ===================================================================== *)
(** ** Auxiliary definitions of the proofs                                *)
(* ===================================================================== *)

(** The loop of [cleanUp] on the entries of the directory alone: the
    entries left and the name at which a removal was refused. *)
Fixpoint sweep (names : list string) (l : list (string * entry))
  : list (string * entry) * option string :=
  match names with
  | [] => (l, None)
  | n :: rest =>
      match assoc n l with
      | None => sweep rest l
      | Some e => if e_pinned e then (l, Some n) else sweep rest (del_entry n l)
      end
  end.

(** The trace a computation adds to the log. *)
Definition trace_of {A} (m : Go A) (w : World) : list event :=
  match m w with
  | Panic _ => []
  | Ret _ w' => drop (length (w_log w)) (w_log w')
  end.

(** Events of the cleanup stage, of the descriptor stage, and launches. *)
Definition cleanup_ev (e : event) : bool :=
  match e with
  | EvOpen _ | EvRemoveAll _ => true
  | _ => false
  end.

Definition config_ev (e : event) : bool :=
  match e with
  | EvCreate _ | EvWrite _ _ => true
  | _ => false
  end.

(** What a regular file holds. *)
Definition file_content (w : World) (p : path) : option content :=
  match w_fs w !! p_dir p with
  | Some dir =>
      match assoc (p_name p) (d_entries dir) with
      | Some (mkEntry (Regular c) _) => Some c
      | _ => None
      end
  | None => None
  end.

(** The descriptor files [generateConfig] sets out to write, in order. *)
Definition descriptors (env : Env) (namespace clusterName : string)
  : list (string * content) :=
  [("ca-config.json", Doc (marshal_caconfig caConfig));
   ("ca-csr.json", Doc (marshal_csr (caCSR namespace clusterName)))]
  ++ ((λ kv, (kv.2, Doc (marshal_csr (leafCSR kv.1 namespace clusterName))))
        <$> map_range env leafFiles).

Fixpoint write_files (dir : string) (plan : list (string * content))
  : Go (option error) :=
  match plan with
  | [] => ret None
  | (n, c) :: rest =>
      '(f, _) ← os_Create (dir // n);
      check! File_Write f c;
      write_files dir rest
  end.

(** The world a computation leaves. *)
Definition after {A} (m : Go A) (w : World) : World :=
  match m w with
  | Ret _ w' => w'
  | Panic _ => w
  end.

(** The event a launch of the command leaves in the trace. *)
Definition launch_ev (c : Cmd) : event := EvStart (Path c) (Args c).

(** A command as [exec.Command] returns it: nothing wired, not started. *)
Definition fresh (c : Cmd) : Prop := Stdout c = None ∧ Process c = None.

(** The launches of a provisioning run, stage by stage: the CA issuance,
    the four leaf issuances, the six conversions. *)
Definition caCommands (env : Env) (configDir certsDir : string) : list Cmd :=
  [exec_Command env "cfssl"
     [Lit "gencert"; Lit "-initca"; File (configDir // "ca-csr.json")];
   exec_Command env "cfssljson" [Lit "-bare"; File (certsDir // "ca")]].

Definition leafNames : list string := ["node"; "kibana"; "cerebro"; "sgadmin"].

Definition conversions (env : Env) (certsDir : string) : list Cmd :=
  [cmdConvertNodePkcs8 env certsDir; cmdConvertSgadmin env certsDir;
   cmdConvertNode env certsDir; cmdCAJKS env certsDir;
   cmdSgadminJKS env certsDir; cmdNodeJKS env certsDir].

Definition stages (env : Env) (configDir certsDir : string) : list (list event) :=
  [launch_ev <$> caCommands env configDir certsDir]
  ++ ((λ name, launch_ev <$> leafCommands env configDir certsDir name) <$> leafNames)
  ++ ((λ c, [launch_ev c]) <$> conversions env certsDir).

(** [m] adds the events of the first [k] groups to the trace, all of them
    when it returns nil, and leaves the secret store alone. *)
Definition emits (m : Go (option error)) (groups : list (list event)) : Prop :=
  ∀ w, ∃ r w' k,
    m w = Ret r w'
    ∧ w_secrets w' = w_secrets w
    ∧ w_log w' = w_log w ++ concat (take k groups)
    ∧ (k ≤ length groups)%nat
    ∧ (r = None → k = length groups).

(** The literal arguments of a command line, and the names of the files
    it mentions. *)
Fixpoint lits (args : list arg) : list string :=
  match args with
  | [] => []
  | Lit s :: rest => s :: lits rest
  | File _ :: rest => lits rest
  end.

Fixpoint file_names (args : list arg) : list string :=
  match args with
  | [] => []
  | Lit _ :: rest => file_names rest
  | File p :: rest => p_name p :: file_names rest
  end.

(** The stage of a provisioning run an event belongs to. *)
Inductive stage :=
  | Cleanup
  | Config
  | IssueCA
  | IssueLeaf
  | Convert
  | Assemble.

Definition stage_of (e : event) : stage :=
  match e with
  | EvOpen _ | EvRemoveAll _ => Cleanup
  | EvCreate _ | EvWrite _ _ => Config
  | EvStart exe args =>
      if String.eqb exe "cfssl" || String.eqb exe "cfssljson" then
        if existsb (String.eqb "-initca") (lits args)
           || existsb (String.eqb "ca") (file_names args)
        then IssueCA else IssueLeaf
      else Convert
  | EvReadFile _ | EvSecretCreate _ _ => Assemble
  end.

Definition rank (s : stage) : nat :=
  match s with
  | Cleanup => 0
  | Config => 1
  | IssueCA => 2
  | IssueLeaf => 3
  | Convert => 4
  | Assemble => 5
  end.

Definition in_order (a b : event) : Prop :=
  (rank (stage_of a) ≤ rank (stage_of b))%nat.

(** A PKCS12 export or a keystore operation. *)
Definition is_keystore (e : event) : bool :=
  match e with
  | EvStart exe args =>
      (String.eqb exe "openssl" && existsb (String.eqb "pkcs12") (lits args))
      || String.eqb exe "keytool"
  | _ => false
  end.



(** The arguments that follow a password option. *)
Definition password_flag (f : string) : bool :=
  existsb (String.eqb f)
    ["-password"; "-storepass"; "-srcstorepass"; "-deststorepass";
     "-keypass"; "-srckeypass"; "-destkeypass"; "-passin"; "-passout"].

Fixpoint passwords (args : list arg) : list arg :=
  match args with
  | [] => []
  | a :: rest =>
      match a, rest with
      | Lit f, v :: _ =>
          if password_flag f then v :: passwords rest else passwords rest
      | _, _ => passwords rest
      end
  end.

Definition is_changeit (a : arg) : bool :=
  match a with
  | Lit s => String.eqb s "changeit" || String.eqb s "pass:changeit"
  | File _ => false
  end.

Definition password_ok (e : event) : bool :=
  match e with
  | EvStart exe args =>
      if is_keystore e
      then match passwords args with
           | [] => false
           | pws => forallb is_changeit pws
           end
      else true
  | _ => true
  end.

(** The fourteen names of the bundle. *)
Definition artifacts : list string :=
  ["node-keystore.jks"; "sgadmin-keystore.jks"; "truststore.jks"; "ca.pem";
   "ca-key.pem"; "node.pem"; "node-key.pem"; "node-key.pkcs8.pem";
   "sgadmin.pem"; "sgadmin-key.pem"; "kibana-key.pem"; "kibana.pem";
   "cerebro-key.pem"; "cerebro.pem"].

(** What [ioutil.ReadFile] returns in a world. *)
Definition read_result (w : World) (p : path) : content * option error :=
  match w_fs w !! p_dir p with
  | None => (no_bytes, Some (ErrNotExist p))
  | Some dir =>
      match assoc (p_name p) (d_entries dir) with
      | None => (no_bytes, Some (ErrNotExist p))
      | Some (mkEntry (Regular c) _) => (c, None)
      | Some (mkEntry (Faulty c) _) => (c, Some (ErrIO p))
      | Some (mkEntry Subtree _) => (no_bytes, Some (ErrIsDir p))
      end
  end.

(** The entry a path names, if any. *)
Definition entry_at (w : World) (p : path) : option entry :=
  match w_fs w !! p_dir p with
  | Some dir => assoc (p_name p) (d_entries dir)
  | None => None
  end.

(** [os.Create] of the path fails: no such directory, or the name is a
    subdirectory. *)
Definition blocked (w : World) (p : path) : Prop :=
  match w_fs w !! p_dir p with
  | None => True
  | Some dir => ∃ pin, assoc (p_name p) (d_entries dir) = Some (mkEntry Subtree pin)
  end.

(** The events of writing the files of a plan one after the other. *)
Definition write_events (dir : string) (plan : list (string * content))
  : list event :=
  plan ≫= λ nc, [EvCreate (dir // nc.1); EvWrite (dir // nc.1) nc.2].

(** The names of the six descriptor files. *)
Definition descriptor_names : list string :=
  ["ca-config.json"; "ca-csr.json"; "req-node-csr.json";
   "req-sgadmin-csr.json"; "req-kibana-csr.json"; "req-cerebro-csr.json"].

(** [c'] is [c] with its standard input wired. *)
Definition wired (c' c : Cmd) : Prop := ∃ s, c' = set_Stdin s c.

(** A computation that never returns nil. *)
Definition never_nil (m : Go (option error)) : Prop :=
  ∀ w r w', m w = Ret r w' → r ≠ None.



(* ===================================================================== *)
(** ** Proofs                                                             *)
(* ===================================================================== *)

Ltac go_step :=
  unfold bind, ret, get, modify, panic in *; simpl in *.

(** Membership in a list given by its elements. *)
Ltac elem_here :=
  repeat first [ apply list_elem_of_here | apply list_elem_of_further ].

Ltac world_simpl :=
  unfold set_fs, set_pipes, set_secrets, emit in *; simpl in *.

(** *** cleanUp *)

Lemma assoc_filter_out {A} (P : string → Prop) `{∀ x, Decision (P x)}
    (n : string) (l : list (string * A)) :
  ¬ P n → assoc n (filter (λ x, P x.1) l) = None.
Proof.
  intros Hn. induction l as [|[k v] l IH]; [done|].
  rewrite filter_cons. simpl. destruct (decide (P k)) as [Hk|Hk]; [|done].
  simpl. destruct (decide (k = n)) as [->|_]; [done|]. exact IH.
Qed.

Lemma assoc_None_filter {A} (n : string) (l : list (string * A)) :
  assoc n l = None → filter (λ x, x.1 ≠ n) l = l.
Proof.
  induction l as [|[k v] l IH]; [done|]. simpl.
  destruct (decide (k = n)) as [->|Hk]; [done|]. intros Hl.
  rewrite filter_cons_True by done. by rewrite IH.
Qed.

Lemma filter_names_cons (n : string) (names : list string)
    (l : list (string * entry)) :
  filter (λ x, x.1 ∉ names) (del_entry n l) = filter (λ x, x.1 ∉ n :: names) l.
Proof.
  unfold del_entry. rewrite list_filter_filter.
  apply list_filter_iff. intros [k v]. simpl. rewrite not_elem_of_cons. tauto.
Qed.

Lemma filter_notin_nil (l : list (string * entry)) :
  filter (λ x : string * entry, x.1 ∉ ([] : list string)) l = l.
Proof.
  induction l as [|x l IHl]; [done|].
  rewrite filter_cons_True by apply not_elem_of_nil. by rewrite IHl.
Qed.

Lemma sweep_ok names l l1 :
  sweep names l = (l1, None) → l1 = filter (λ x, x.1 ∉ names) l.
Proof.
  revert l. induction names as [|n names IH]; intros l; simpl.
  - intros [= <-]. by rewrite filter_notin_nil.
  - destruct (assoc n l) as [e|] eqn:Hn.
    + destruct (e_pinned e); [done|]. intros Hs. apply IH in Hs.
      by rewrite Hs, filter_names_cons.
    + intros Hs. apply IH in Hs. rewrite Hs.
      rewrite <- (assoc_None_filter n l Hn) at 1. fold (del_entry n l).
      apply filter_names_cons.
Qed.

Lemma sweep_unpinned names l :
  Forall (λ x, e_pinned x.2 = false) l →
  sweep names l = (filter (λ x, x.1 ∉ names) l, None).
Proof.
  revert l. induction names as [|n names IH]; intros l Hl; simpl.
  - by rewrite filter_notin_nil.
  - assert (Hdel : Forall (λ x, e_pinned x.2 = false) (del_entry n l)).
    { unfold del_entry. rewrite Forall_forall in *. intros x Hx.
      apply list_elem_of_filter in Hx as [_ Hx]. by apply Hl. }
    destruct (assoc n l) as [e|] eqn:Hn.
    + assert (He : e_pinned e = false).
      { clear -Hl Hn. induction l as [|[k v] l IHl]; [done|]. simpl in Hn.
        inversion Hl as [|? ? Hv Hl']; subst.
        destruct (decide (k = n)); [by inversion Hn; subst|by apply IHl]. }
      rewrite He, IH by done. by rewrite filter_names_cons.
    + rewrite IH by done. f_equal.
      rewrite <- (assoc_None_filter n l Hn) at 1. fold (del_entry n l).
      apply filter_names_cons.
Qed.

Lemma filter_own_names (l : list (string * entry)) :
  filter (λ x, x.1 ∉ l.*1) l = [].
Proof.
  assert (H : ∀ names : list string, (∀ x, x ∈ l → x.1 ∈ names) →
                       filter (λ x : string * entry, x.1 ∉ names) l = []).
  { intros names. induction l as [|x l IH]; intros Hin; [done|].
    rewrite filter_cons_False.
    - apply IH. intros y Hy. apply Hin. by right.
    - intros Hx. apply Hx, Hin. by left. }
  apply H. intros x Hx. apply list_elem_of_fmap. by exists x.
Qed.

(** A second sweep stops where the first one did. *)
Lemma sweep_again_gen (suf : list (string * entry)) (R : list string) l1 r :
  sweep (suf.*1) (filter (λ x, x.1 ∉ R) suf) = (l1, r) →
  sweep (l1.*1) l1 = (l1, r).
Proof.
  revert R. induction suf as [|[n e] suf IH]; intros R; simpl.
  - intros [= <- <-]. done.
  - rewrite filter_cons. simpl. destruct (decide (n ∉ R)) as [Hn|Hn].
    + simpl. rewrite decide_True by done.
      destruct (e_pinned e) eqn:He.
      * intros [= <- <-]. simpl. rewrite decide_True by done. by rewrite He.
      * unfold del_entry at 1. rewrite filter_cons_False by (simpl; tauto).
        fold (del_entry n (filter (λ x, x.1 ∉ R) suf)).
        assert (Heq : del_entry n (filter (λ x : string * entry, x.1 ∉ R) suf)
                      = filter (λ x : string * entry, x.1 ∉ n :: R) suf).
        { unfold del_entry. rewrite list_filter_filter.
          apply list_filter_iff. intros [k v]. simpl.
          rewrite not_elem_of_cons. tauto. }
        rewrite Heq. apply IH.
    + pose proof (assoc_filter_out (A:=entry) (λ k, k ∉ R) n suf Hn) as Hnone.
      simpl in Hnone. rewrite Hnone. apply IH.
Qed.

Lemma sweep_again l l1 r :
  sweep (l.*1) l = (l1, r) → sweep (l1.*1) l1 = (l1, r).
Proof.
  intros H. apply (sweep_again_gen l [] l1 r). by rewrite filter_notin_nil.
Qed.

Lemma cleanUp_range_run names : ∀ dir w d,
  w_fs w !! dir = Some d →
  ∃ w', cleanUp_range dir names w
          = Ret ((λ n, ErrPermission (dir // n)) <$> (sweep names (d_entries d)).2) w'
      ∧ w_fs w' = <[dir := mkDir (sweep names (d_entries d)).1 (d_unlistable d)]> (w_fs w)
      ∧ w_pipes w' = w_pipes w
      ∧ w_secrets w' = w_secrets w
      ∧ ∃ t, w_log w' = w_log w ++ t ∧ Forall (λ e, cleanup_ev e = true) t.
Proof.
  induction names as [|n names IH]; intros dir w d Hd; simpl.
  - exists w. go_step. split_and!; try done.
    + destruct d. simpl. by rewrite insert_id.
    + exists []. by rewrite app_nil_r.
  - unfold os_RemoveAll. go_step. rewrite Hd.
    destruct (assoc n (d_entries d)) as [e|] eqn:Hn; simpl.
    + destruct (e_pinned e) eqn:He; simpl.
      * eexists. split; [reflexivity|]. simpl. split_and!; try done.
        -- destruct d. simpl. by rewrite insert_id.
        -- exists [EvRemoveAll (dir // n)]. split; [done|]. by repeat constructor.
      * edestruct (IH dir (set_fs (<[dir := mkDir (del_entry n (d_entries d))
                                     (d_unlistable d)]> (w_fs w))
                                  (emit (EvRemoveAll (dir // n)) w)))
          as (w' & Hrun & Hfs & Hp & Hs & t & Hlog & Ht).
        { simpl. apply lookup_insert_eq. }
        simpl in *. exists w'. split; [exact Hrun|]. split_and!; try done.
        -- by rewrite Hfs, insert_insert_eq.
        -- exists (EvRemoveAll (dir // n) :: t). split.
           ++ by rewrite Hlog, <- app_assoc.
           ++ by constructor.
    + edestruct (IH dir (emit (EvRemoveAll (dir // n)) w)) as
          (w' & Hrun & Hfs & Hp & Hs & t & Hlog & Ht); [exact Hd|].
      simpl in *. exists w'. split; [exact Hrun|]. split_and!; try done.
      exists (EvRemoveAll (dir // n) :: t). split.
      * by rewrite Hlog, <- app_assoc.
      * by constructor.
Qed.

(** [cleanUp] always returns; this is all it does to the world. *)
Lemma cleanUp_run dir w :
  ∃ r w', cleanUp dir w = Ret r w'
    ∧ w_pipes w' = w_pipes w
    ∧ w_secrets w' = w_secrets w
    ∧ (∃ t, w_log w' = w_log w ++ EvOpen dir :: t
            ∧ Forall (λ e, cleanup_ev e = true) t)
    ∧ match w_fs w !! dir with
      | None => r = Some (ErrNoDir dir) ∧ w_fs w' = w_fs w
      | Some d =>
          if d_unlistable d then r = Some (ErrReaddir dir) ∧ w_fs w' = w_fs w
          else r = (λ n, ErrPermission (dir // n))
                     <$> (sweep (d_entries d).*1 (d_entries d)).2
               ∧ w_fs w' = <[dir := mkDir (sweep (d_entries d).*1 (d_entries d)).1
                                             false]> (w_fs w)
      end.
Proof.
  unfold cleanUp, os_Open. go_step.
  destruct (w_fs w !! dir) as [d|] eqn:Hd; simpl.
  - unfold Readdirnames. destruct (d_unlistable d) eqn:Hu; simpl.
    + eexists _, _. split; [reflexivity|]. simpl. split_and!; try done.
      exists []. done.
    + destruct (cleanUp_range_run (d_entries d).*1 dir (emit (EvOpen dir) w) d Hd)
        as (w' & Hrun & Hfs & Hp & Hs & t & Hlog & Ht).
      simpl in *. eexists _, w'. split; [exact Hrun|]. split_and!; try done.
      * exists t. split; [|done]. by rewrite Hlog, <- app_assoc.
      * by rewrite Hfs, Hu.
  - eexists _, _. split; [reflexivity|]. simpl. split_and!; try done.
    exists []. done.
Qed.

(** Whatever the first call did, a second call right after it returns the
    same result and leaves the file system as the first one left it. *)
Lemma cleanUp_twice dir w r w1 :
  cleanUp dir w = Ret r w1 →
  ∃ w2, cleanUp dir w1 = Ret r w2 ∧ w_fs w2 = w_fs w1.
Proof.
  intros H1.
  destruct (cleanUp_run dir w) as (r' & w1' & Hrun & _ & _ & _ & Hcase).
  rewrite H1 in Hrun. injection Hrun as <- <-.
  destruct (cleanUp_run dir w1) as (r2 & w2 & Hrun2 & _ & _ & _ & Hcase2).
  exists w2. destruct (w_fs w !! dir) as [d|] eqn:Hd.
  - destruct (d_unlistable d) eqn:Hu.
    + destruct Hcase as [-> Hfs]. rewrite Hfs, Hd, Hu in Hcase2.
      destruct Hcase2 as [-> ?]. split; [done|congruence].
    + destruct Hcase as [-> Hfs].
      rewrite Hfs, lookup_insert_eq in Hcase2. simpl in Hcase2.
      destruct (sweep (d_entries d).*1 (d_entries d)) as [l1 e1] eqn:Hs.
      apply sweep_again in Hs. simpl in Hcase2. rewrite Hs in Hcase2.
      simpl in *. destruct Hcase2 as [-> Hfs2]. split; [done|].
      by rewrite Hfs2, Hfs, insert_insert_eq.
  - destruct Hcase as [-> Hfs]. rewrite Hfs, Hd in Hcase2.
    destruct Hcase2 as [-> ?]. split; [done|congruence].
Qed.

(** C7. [cleanUp] returns on every directory.  Whenever it succeeds the
    directory is still there and holds no entry, whatever the number of
    entries it held, and the other directories are as they were; it
    succeeds whenever the directory can be listed and none of its entries
    refuses removal.  Calling it a second time returns the same result
    and leaves the file system as the first call left it. *)
Theorem cleanUp_empties_and_is_idempotent (dir : string) (w : World) :
  ∃ r w1, cleanUp dir w = Ret r w1
    ∧ (r = None →
         w_fs w1 !! dir = Some empty_dir
         ∧ ∀ other, other ≠ dir → w_fs w1 !! other = w_fs w !! other)
    ∧ (∀ d, w_fs w !! dir = Some d → d_unlistable d = false →
            Forall (λ x, e_pinned x.2 = false) (d_entries d) → r = None)
    ∧ (is_Some (w_fs w !! dir) → is_Some (w_fs w1 !! dir))
    ∧ ∃ w2, cleanUp dir w1 = Ret r w2 ∧ w_fs w2 = w_fs w1.
Proof.
  destruct (cleanUp_run dir w) as (r & w1 & Hrun & _ & _ & _ & Hcase).
  exists r, w1. split; [exact Hrun|]. split_and!.
  - intros ->. destruct (w_fs w !! dir) as [d|] eqn:Hd.
    + destruct (d_unlistable d); [by destruct Hcase|].
      destruct Hcase as [Hr Hfs].
      destruct (sweep (d_entries d).*1 (d_entries d)) as [l1 [n|]] eqn:Hs;
        [done|].
      apply sweep_ok in Hs. rewrite filter_own_names in Hs. subst l1.
      simpl in Hfs. rewrite Hfs. split; [apply lookup_insert_eq|].
      intros other Hne. by rewrite lookup_insert_ne.
    + by destruct Hcase.
  - intros d Hd Hu Hall. rewrite Hd, Hu in Hcase. destruct Hcase as [-> _].
    by rewrite sweep_unpinned.
  - intros [d Hd]. rewrite Hd in Hcase. destruct (d_unlistable d).
    + destruct Hcase as [_ ->]. by rewrite Hd.
    + destruct Hcase as [_ ->]. rewrite lookup_insert_eq. eauto.
  - by apply (cleanUp_twice dir w).
Qed.

Lemma cleanUp_concrete :
  ∃ w1, cleanUp "/certs" w_used = Ret None w1
        ∧ w_fs w1 !! "/certs" = Some empty_dir.
Proof.
  destruct (cleanUp_empties_and_is_idempotent "/certs" w_used)
    as (r & w1 & Hrun & Hempty & Hok & _).
  assert (Hr : r = None).
  { apply (Hok (mkDir [("ca.pem", file "a"); ("ca-key.pem", file "b");
                        ("tmp", mkEntry Subtree false)] false)).
    - reflexivity.
    - reflexivity.
    - repeat constructor. }
  subst r. exists w1. split; [exact Hrun|]. apply Hempty. reflexivity.
Defined.

(** *** generateConfig *)

Lemma assoc_set_entry_eq n e l : assoc n (set_entry n e l) = Some e.
Proof.
  induction l as [|[k v] l IH]; simpl.
  - by rewrite decide_True.
  - destruct (decide (k = n)) as [->|Hk]; simpl.
    + by rewrite decide_True.
    + by rewrite decide_False.
Qed.

Lemma assoc_set_entry_ne n n' e l :
  n ≠ n' → assoc n' (set_entry n e l) = assoc n' l.
Proof.
  intros Hne. induction l as [|[k v] l IH]; simpl.
  - by rewrite decide_False.
  - destruct (decide (k = n)) as [->|Hk]; simpl.
    + by rewrite !decide_False.
    + destruct (decide (k = n')); [done|exact IH].
Qed.

Lemma file_content_frame w w' p p' d l u :
  w_fs w !! p_dir p = Some d →
  w_fs w' = <[p_dir p := mkDir l u]> (w_fs w) →
  (p_dir p = p_dir p' → assoc (p_name p') l = assoc (p_name p') (d_entries d)) →
  file_content w' p' = file_content w p'.
Proof.
  intros Hd Hfs Hl. unfold file_content. rewrite Hfs.
  destruct (decide (p_dir p = p_dir p')) as [Heq|Hdir].
  - rewrite <- Heq, lookup_insert_eq, Hd. simpl. by rewrite Hl.
  - by rewrite lookup_insert_ne.
Qed.

Lemma path_name_ne p p' : p' ≠ p → p_dir p = p_dir p' → p_name p ≠ p_name p'.
Proof. destruct p, p'. simpl. intros Hne -> ->. by apply Hne. Qed.

(** One descriptor: [os.Create] then [Write]. *)
Lemma write_one_run p c w :
  ∃ r w', (bind (os_Create p) (λ x, File_Write x.1 c)) w = Ret r w'
    ∧ w_pipes w' = w_pipes w ∧ w_secrets w' = w_secrets w
    ∧ (∀ p', p' ≠ p → file_content w' p' = file_content w p')
    ∧ match r with
      | None => w_log w' = w_log w ++ [EvCreate p; EvWrite p c]
                ∧ file_content w' p = Some c
      | Some _ => w_log w' = w_log w ++ [EvCreate p]
      end.
Proof.
  assert (Hok : ∀ d pin,
    w_fs w !! p_dir p = Some d →
    let w' := mkWorld (<[p_dir p := mkDir
                 (set_entry (p_name p) (mkEntry (Regular c) pin)
                    (set_entry (p_name p) (mkEntry (Regular no_bytes) pin)
                       (d_entries d))) (d_unlistable d)]> (w_fs w))
                (w_pipes w) (w_secrets w)
                (w_log w ++ [EvCreate p; EvWrite p c]) in
    (∀ p', p' ≠ p → file_content w' p' = file_content w p')
    ∧ file_content w' p = Some c).
  { intros d pin Hd w'. split.
    - intros p' Hne. eapply file_content_frame; [exact Hd|reflexivity|].
      intros Heq. pose proof (path_name_ne _ _ Hne Heq).
      by rewrite !assoc_set_entry_ne.
    - unfold file_content. simpl. rewrite lookup_insert_eq. simpl.
      by rewrite assoc_set_entry_eq. }
  unfold os_Create, File_Write. go_step.
  destruct (w_fs w !! p_dir p) as [d|] eqn:Hd; simpl.
  - destruct (assoc (p_name p) (d_entries d)) as [[nd pin]|] eqn:Hn; simpl.
    + destruct (Hok d pin eq_refl) as [Hframe Hread].
      destruct nd; simpl.
      1,2: rewrite lookup_insert_eq; simpl; rewrite assoc_set_entry_eq;
        world_simpl; rewrite insert_insert_eq, <- app_assoc;
        eexists _, _; (split; [reflexivity|]); simpl; split_and!; done.
      eexists _, _. split; [reflexivity|]. simpl. split_and!; done.
    + destruct (Hok d false eq_refl) as [Hframe Hread].
      rewrite lookup_insert_eq. simpl. rewrite assoc_set_entry_eq.
      world_simpl. rewrite insert_insert_eq, <- app_assoc.
      eexists _, _. split; [reflexivity|]. simpl. split_and!; done.
  - eexists _, _. split; [reflexivity|]. simpl. split_and!; done.
Qed.

Lemma write_files_cons dir n c rest w :
  write_files dir ((n, c) :: rest) w
  = match bind (os_Create (dir // n)) (λ x, File_Write x.1 c) w with
    | Panic msg => Panic msg
    | Ret (Some e) w1 => Ret (Some e) w1
    | Ret None w1 => write_files dir rest w1
    end.
Proof.
  simpl. unfold bind. destruct (os_Create (dir // n) w) as [|[f e] w1]; [done|].
  simpl. destruct (File_Write f c w1) as [|[e'|] w2]; done.
Qed.

Lemma write_files_run dir plan : ∀ w,
  ∃ r w', write_files dir plan w = Ret r w'
    ∧ w_pipes w' = w_pipes w ∧ w_secrets w' = w_secrets w
    ∧ (∀ p', p' ∉ (mkPath dir <$> plan.*1) → file_content w' p' = file_content w p')
    ∧ ∃ t, w_log w' = w_log w ++ t
        ∧ Forall (λ e, config_ev e = true) t
        ∧ (∀ p c, EvWrite p c ∈ t → ∃ n, p = dir // n ∧ (n, c) ∈ plan)
        ∧ (r = None →
             (∀ n c, (n, c) ∈ plan → EvWrite (dir // n) c ∈ t)
             ∧ (NoDup plan.*1 →
                ∀ n c, (n, c) ∈ plan → file_content w' (dir // n) = Some c)).
Proof.
  induction plan as [|[n c] plan IH]; intros w.
  - exists None, w. simpl. split; [done|]. split_and!; try done.
    exists []. rewrite app_nil_r. split_and!; try done.
    + intros p c H. by apply elem_of_nil in H.
    + intros _. split; [|intros _]; intros n c H; by apply elem_of_nil in H.
  - rewrite write_files_cons.
    destruct (write_one_run (dir // n) c w)
      as (r1 & w1 & -> & Hp1 & Hs1 & Hframe1 & Hcase).
    destruct r1 as [e|].
    + exists (Some e), w1. split; [done|]. split_and!; try done.
      * intros p' Hp'. apply Hframe1. intros ->. apply Hp'. simpl. by left.
      * exists [EvCreate (dir // n)]. split_and!; try done.
        -- by repeat constructor.
        -- intros p c' H. apply list_elem_of_singleton in H. done.
    + destruct Hcase as [Hlog1 Hread1].
      destruct (IH w1) as (r & w' & Hrun & Hp & Hs & Hframe & t & Hlog & Ht & Hw & Hok).
      exists r, w'. split; [done|]. split_and!; try congruence.
      * intros p' Hp'. rewrite Hframe, Hframe1; [done| |].
        -- intros ->. apply Hp'. simpl. by left.
        -- intros Hin. apply Hp'. simpl. by right.
      * exists (EvCreate (dir // n) :: EvWrite (dir // n) c :: t). split_and!.
        -- rewrite Hlog, Hlog1, <- app_assoc. done.
        -- by repeat constructor.
        -- intros p c' H. apply elem_of_cons in H as [?|H]; [done|].
           apply elem_of_cons in H as [[= -> ->]|H].
           ++ exists n. split; [done|by left].
           ++ destruct (Hw p c' H) as (n' & -> & Hin). exists n'.
              split; [done|by right].
        -- intros ->. destruct (Hok eq_refl) as [Hall Hnd]. split.
           ++ intros n' c' H. apply elem_of_cons in H as [[= -> ->]|H].
              ** right. by left.
              ** do 2 right. by apply Hall.
           ++ intros Hdup n' c' H. simpl in Hdup. apply NoDup_cons in Hdup as [Hn Hdup].
              apply elem_of_cons in H as [[= -> ->]|H].
              ** rewrite Hframe; [done|]. intros Hin.
                 apply list_elem_of_fmap in Hin as (n' & [= <-] & Hin). done.
              ** by apply Hnd.
Qed.

Lemma generateConfig_range_eq cfg ns cn kvs : ∀ w,
  generateConfig_range cfg ns cn kvs w
  = write_files cfg ((λ kv, (kv.2, Doc (marshal_csr (leafCSR kv.1 ns cn)))) <$> kvs) w.
Proof.
  induction kvs as [|[k v] kvs IH]; intros w; [done|]. simpl. unfold bind.
  destruct (os_Create (cfg // v) w) as [|[f e] w1]; [done|].
  destruct (File_Write f _ w1) as [|[e'|] w2]; done.
Qed.

Lemma generateConfig_eq env cfg certs ns cn w :
  generateConfig env cfg certs ns cn w = write_files cfg (descriptors env ns cn) w.
Proof.
  unfold generateConfig, descriptors. simpl. unfold bind.
  destruct (os_Create (cfg // "ca-config.json") w) as [|[f e] w1]; [done|].
  destruct (File_Write f _ w1) as [|[e'|] w2]; try done.
  destruct (os_Create (cfg // "ca-csr.json") w2) as [|[f2 e2] w3]; [done|].
  destruct (File_Write f2 _ w3) as [|[e3|] w4]; try done.
  apply generateConfig_range_eq.
Qed.

Section Descriptors.

Context (env : Env) (cfg certs ns cn : string).
Hypothesis range_visits_each_once : map_range env leafFiles ≡ₚ leafFiles.

Lemma descriptors_leaf k v :
  (k, v) ∈ leafFiles →
  (v, Doc (marshal_csr (leafCSR k ns cn))) ∈ descriptors env ns cn.
Proof.
  intros Hin. unfold descriptors. do 2 right.
  apply list_elem_of_fmap. exists (k, v). split; [done|].
  by rewrite range_visits_each_once.
Qed.

Lemma descriptors_names :
  (descriptors env ns cn).*1
  = "ca-config.json" :: "ca-csr.json" :: (map_range env leafFiles).*2.
Proof.
  unfold descriptors. simpl. do 2 f_equal.
  by rewrite <- list_fmap_compose.
Qed.

Lemma descriptors_NoDup : NoDup (descriptors env ns cn).*1.
Proof.
  rewrite descriptors_names, range_visits_each_once. simpl.
  apply (bool_decide_unpack _). by vm_compute.
Qed.

Lemma generateConfig_files w w' :
  generateConfig env cfg certs ns cn w = Ret None w' →
  ∀ n c, (n, c) ∈ descriptors env ns cn → file_content w' (cfg // n) = Some c.
Proof.
  rewrite generateConfig_eq. intros Hrun n c Hin.
  destruct (write_files_run cfg (descriptors env ns cn) w)
    as (r & w1 & Hrun' & _ & _ & _ & t & _ & _ & _ & Hok).
  rewrite Hrun in Hrun'. injection Hrun' as <- <-.
  destruct (Hok eq_refl) as [_ Hfiles]. apply Hfiles; [|done].
  apply descriptors_NoDup.
Qed.

Lemma generateConfig_writes w p c :
  EvWrite p c ∈ trace_of (generateConfig env cfg certs ns cn) w →
  ∃ n, p = cfg // n ∧ (n, c) ∈ descriptors env ns cn.
Proof.
  destruct (write_files_run cfg (descriptors env ns cn) w)
    as (r & w1 & Hrun & _ & _ & _ & t & Hlog & _ & Hw & _).
  unfold trace_of. rewrite generateConfig_eq, Hrun, Hlog, drop_app_length.
  apply Hw.
Qed.

Lemma descriptors_functional n c c' :
  (n, c) ∈ descriptors env ns cn → (n, c') ∈ descriptors env ns cn → c = c'.
Proof.
  intros H H'.
  apply (elem_of_list_to_map_1 (M:=gmap string)) in H, H';
    try apply descriptors_NoDup.
  congruence.
Qed.

Lemma generateConfig_writes_file w n c0 c :
  (n, c0) ∈ descriptors env ns cn →
  EvWrite (cfg // n) c ∈ trace_of (generateConfig env cfg certs ns cn) w →
  c = c0.
Proof.
  intros Hin Hw. apply generateConfig_writes in Hw as (n' & [= <-] & Hin').
  by apply (descriptors_functional n).
Qed.


(** C8. There is one signing policy, with the usages signing, key
    encipherment, server auth, client auth and the expiry 8760h, and for
    the CA and each of the four leaves one descriptor asking for an rsa
    key of 2048 bits, such that whatever a run of [generateConfig] writes
    is one of these six documents in its file, and after a successful run
    the files hold them. *)
Theorem descriptors_policy_and_key (w : World) :
  (∃ j, json_path ["signing"; "default"; "usages"] j
        = Some (JArr [JStr "signing"; JStr "key encipherment";
                      JStr "server auth"; JStr "client auth"])
      ∧ json_path ["signing"; "default"; "expiry"] j = Some (JStr "8760h")
      ∧ (∀ c, EvWrite (cfg // "ca-config.json") c
                ∈ trace_of (generateConfig env cfg certs ns cn) w → c = Doc j)
      ∧ (∀ w', generateConfig env cfg certs ns cn w = Ret None w' →
               file_content w' (cfg // "ca-config.json") = Some (Doc j)))
  ∧ (∀ f, f ∈ ["ca-csr.json"; "req-node-csr.json"; "req-sgadmin-csr.json";
                "req-kibana-csr.json"; "req-cerebro-csr.json"] →
      ∃ j, json_field "key" j
           = Some (JObj [("algo", JStr "rsa"); ("size", JNum 2048)])
         ∧ (∀ c, EvWrite (cfg // f) c
                   ∈ trace_of (generateConfig env cfg certs ns cn) w → c = Doc j)
         ∧ (∀ w', generateConfig env cfg certs ns cn w = Ret None w' →
                  file_content w' (cfg // f) = Some (Doc j)))
  ∧ (∀ p c, EvWrite p c ∈ trace_of (generateConfig env cfg certs ns cn) w →
            p ∈ mkPath cfg <$> ["ca-config.json"; "ca-csr.json";
                                "req-node-csr.json"; "req-sgadmin-csr.json";
                                "req-kibana-csr.json"; "req-cerebro-csr.json"]).
Proof.
  assert (Hall : ∀ n j, (n, Doc j) ∈ descriptors env ns cn →
    (∀ c, EvWrite (cfg // n) c ∈ trace_of (generateConfig env cfg certs ns cn) w →
          c = Doc j)
    ∧ (∀ w', generateConfig env cfg certs ns cn w = Ret None w' →
             file_content w' (cfg // n) = Some (Doc j))).
  { intros n j Hin. split.
    - intros c. by apply generateConfig_writes_file.
    - intros w' Hrun. by apply (generateConfig_files w w' Hrun). }
  split_and!.
  - exists (marshal_caconfig caConfig). do 2 (split; [done|]).
    apply Hall. by left.
  - intros f Hf. apply elem_of_cons in Hf as [->|Hf].
    { exists (marshal_csr (caCSR ns cn)). split; [done|].
      apply Hall. right. by left. }
    assert (Hleaf : ∃ k, (k, f) ∈ leafFiles).
    { unfold leafFiles.
      repeat (apply elem_of_cons in Hf as [->|Hf];
              [eexists; by elem_here|]).
      by apply elem_of_nil in Hf. }
    destruct Hleaf as [k Hk]. exists (marshal_csr (leafCSR k ns cn)). split.
    + unfold marshal_csr, omitempty. simpl. by destruct (decide (k = "")).
    + apply Hall. by apply descriptors_leaf.
  - intros p c Hw. apply generateConfig_writes in Hw as (n & -> & Hin).
    apply list_elem_of_fmap. exists n. split; [done|].
    apply (list_elem_of_fmap_2 fst) in Hin. rewrite descriptors_names in Hin.
    simpl in Hin. do 2 (apply elem_of_cons in Hin as [->|Hin]; [elem_here|]).
    rewrite range_visits_each_once in Hin. simpl in Hin.
    do 2 right. exact Hin.
Qed.

End Descriptors.


Lemma descriptors_policy_and_key_example :
  ∃ j, json_field "key" j = Some (JObj [("algo", JStr "rsa"); ("size", JNum 2048)])
     ∧ file_content
         (after (generateConfig std_env "/cfg" "/certs" "logging" "prod") w_clean)
         ("/cfg" // "ca-csr.json") = Some (Doc j).
Proof.
  destruct (descriptors_policy_and_key std_env "/cfg" "/certs" "logging" "prod"
              (reflexivity _) w_clean) as (_ & Hkey & _).
  destruct (Hkey "ca-csr.json") as (j & Hj & _ & Hfile); [elem_here|].
  exists j. split; [exact Hj|]. apply Hfile. vm_compute. reflexivity.
Defined.

(** *** os/exec and pipeCommands *)

Lemma set_pipe_run id p w :
  ∃ w', set_pipe id p w = Ret tt w'
      ∧ w_log w' = w_log w ∧ w_secrets w' = w_secrets w ∧ w_fs w' = w_fs w.
Proof. destruct id; simpl; eexists; (split; [reflexivity|]); done. Qed.

Lemma Cmd_StdoutPipe_run c w :
  ∃ c' out err w', Cmd_StdoutPipe c w = Ret (c', out, err) w'
    ∧ w_log w' = w_log w ∧ w_secrets w' = w_secrets w
    ∧ Path c' = Path c ∧ Args c' = Args c
    ∧ (fresh c → err = None).
Proof.
  unfold Cmd_StdoutPipe, fresh.
  destruct (Stdout c), (Process c); go_step;
    eexists _, _, _, _; (split; [reflexivity|]); simpl; split_and!; try done;
    intros [? ?]; done.
Qed.

Lemma launch_run env c w :
  ∃ c' out err w', launch env c w = Ret (c', out, err) w'
    ∧ w_log w' = w_log w ++ [launch_ev c] ∧ w_secrets w' = w_secrets w
    ∧ Path c' = Path c ∧ Args c' = Args c ∧ Stdout c' = Stdout c.
Proof.
  unfold launch. go_step. destruct (lookPathErr c) as [e|].
  - destruct (set_pipe_run (Stdout c) Shut (emit (launch_ev c) w))
      as (w' & Hrun & Hlog & Hs & _).
    unfold launch_ev in *. rewrite Hrun.
    eexists _, _, _, _. split; [reflexivity|]. by rewrite Hlog, Hs.
  - destruct (Process c).
    + eexists _, _, _, _. split; [reflexivity|]. done.
    + simpl. destruct (run_tool env _ _ _ _) as [fs [out code]]. simpl.
      eexists _, _, _, _. split; [reflexivity|]. done.
Qed.

Lemma Cmd_Start_run env c w :
  ∃ c' err w', Cmd_Start env c w = Ret (c', err) w'
    ∧ w_log w' = w_log w ++ [launch_ev c] ∧ w_secrets w' = w_secrets w
    ∧ Path c' = Path c ∧ Args c' = Args c.
Proof.
  unfold Cmd_Start, bind.
  destruct (launch_run env c w) as (c' & out & err & w' & -> & Hlog & Hs & HP & HA & _).
  destruct err as [e|].
  - eexists _, _, _. split; [reflexivity|]. done.
  - destruct (set_pipe_run (Stdout c') (Fed out) w') as (w2 & -> & Hlog2 & Hs2 & _).
    eexists _, _, _. split; [reflexivity|]. split_and!; congruence.
Qed.

Lemma Cmd_Output_run env c w :
  ∃ out err w', Cmd_Output env c w = Ret (out, err) w'
    ∧ w_secrets w' = w_secrets w
    ∧ w_log w' = w_log w ++ match Stdout c with
                            | Some _ => []
                            | None => [launch_ev c]
                            end.
Proof.
  unfold Cmd_Output, bind. destruct (Stdout c) as [id|] eqn:Hout.
  - eexists _, _, _. split; [reflexivity|]. by rewrite app_nil_r.
  - destruct (launch_run env c w) as (c' & out & err & w' & -> & Hlog & Hs & _).
    destruct err as [e|]; [|destruct (Process c') as [[|code]|]];
      eexists _, _, _; (split; [reflexivity|]); done.
Qed.

(** The loop never panics on indices within the slice. *)
Lemma pipeCommands_range_total env n : ∀ i commands w,
  i + n < length commands →
  ∃ commands' err w', pipeCommands_range env i n commands w
                        = Ret (commands', err) w'
    ∧ length commands' = length commands.
Proof.
  induction n as [|n IH]; intros i commands w Hlen; simpl.
  - by eexists _, _, _.
  - destruct (lookup_lt_is_Some_2 commands i) as [c Hc]; [lia|].
    destruct (lookup_lt_is_Some_2 commands (S i)) as [c2 Hc2]; [lia|].
    rewrite Hc, Hc2. unfold bind.
    destruct (Cmd_StdoutPipe_run c w) as (c' & out & err & w1 & -> & _).
    destruct err as [e|]; [by eexists _, _, _|].
    destruct (Cmd_Start_run env c' w1) as (c'' & err & w2 & -> & _).
    edestruct (IH (S i) (<[S i := set_Stdin out c2]> (<[i := c'']> commands)) w2)
      as (cs & err' & w3 & Hrun & Hl).
    { rewrite !length_insert. lia. }
    rewrite Hrun. eexists _, _, _. split; [reflexivity|].
    by rewrite Hl, !length_insert.
Qed.

(** C10. [pipeCommands] panics on the empty sequence, at the slice
    expression and before any effect; on every non-empty sequence it
    returns; on a one-element sequence it is [Output] of that command,
    with the bytes dropped when [Output] reports an error. *)
Theorem pipeCommands_needs_a_command (env : Env) (w : World) :
  (∃ msg, pipeCommands env [] w = Panic msg)
  ∧ (∀ c commands, ∃ r w', pipeCommands env (c :: commands) w = Ret r w')
  ∧ (∀ c, pipeCommands env [c] w
          = match Cmd_Output env c w with
            | Panic msg => Panic msg
            | Ret (out, None) w' => Ret (out, None) w'
            | Ret (_, Some e) w' => Ret ("", Some e) w'
            end).
Proof.
  split_and!.
  - by eexists.
  - intros c commands. unfold pipeCommands, bind.
    destruct (pipeCommands_range_total env (length (c :: commands) - 1) 0
                (c :: commands) w) as (cs & err & w1 & -> & Hlen);
      [simpl; lia|].
    destruct err as [e|]; [by eexists _, _|].
    destruct (lookup_lt_is_Some_2 cs (length cs - 1)) as [last Hlast];
      [rewrite Hlen; simpl; lia|].
    rewrite Hlast.
    destruct (Cmd_Output_run env last w1) as (out & err & w2 & -> & _).
    destruct err; by eexists _, _.
  - intros c. unfold pipeCommands, bind. simpl.
    destruct (Cmd_Output env c w) as [|[out [e|]] w']; done.
Qed.

(** What [pipeCommands] does report: a failing [StdoutPipe] and a failing
    final command, each with no bytes. *)
Lemma pipeCommands_error_has_no_bytes env commands w out e w' :
  pipeCommands env commands w = Ret (out, Some e) w' → out = "".
Proof.
  unfold pipeCommands, bind. destruct commands as [|c commands]; [done|].
  destruct (pipeCommands_range _ _ _ _ _) as [|[cs [e1|]] w1]; [done| |].
  - by intros [= <- _ _].
  - destruct (cs !! _); [|done].
    destruct (Cmd_Output _ _ _) as [|[o [e2|]] w2]; [done| |done].
    by intros [= <- _ _].
Qed.

Lemma pipeCommands_reports_final_failure env c commands w cs w1 last out e w2 :
  pipeCommands_range env 0 (length (c :: commands) - 1) (c :: commands) w
    = Ret (cs, None) w1 →
  cs !! (length cs - 1) = Some last →
  Cmd_Output env last w1 = Ret (out, Some e) w2 →
  pipeCommands env (c :: commands) w = Ret ("", Some e) w2.
Proof.
  intros Hrange Hlast Hout. unfold pipeCommands, bind.
  by rewrite Hrange, Hlast, Hout.
Qed.

(** C4, evaluated where it fails: the first command cannot be started,
    [Start] says so, and the pipeline still returns the output of the last
    command with a nil error. *)
Theorem pipeCommands_drops_start_failure :
  let c1 := exec_Command std_env "missing-tool" [] in
  let c2 := exec_Command std_env "echo" [] in
  (∃ c w', Cmd_Start std_env c1 w_clean
             = Ret (c, Some (ErrNotFound "missing-tool")) w')
  ∧ ∃ w', pipeCommands std_env [c1; c2] w_clean = Ret ("hello", None) w'.
Proof. split; vm_compute; eauto. Qed.

(** *** The trace of GenerateCerts *)

Lemma emits_ret : emits (ret None) [].
Proof.
  intros w. exists None, w, 0. simpl. rewrite app_nil_r. done.
Qed.

Lemma emits_check m1 m2 g1 g2 :
  emits m1 g1 → emits m2 g2 →
  emits (bind m1 (λ err, match err with
                         | Some e => ret (Some e)
                         | None => m2
                         end)) (g1 ++ g2).
Proof.
  intros H1 H2 w. unfold bind.
  destruct (H1 w) as (r1 & w1 & k1 & -> & Hs1 & Hlog1 & Hk1 & Hfull1).
  destruct r1 as [e|].
  - exists (Some e), w1, k1. split; [done|]. split_and!; try done.
    + by rewrite take_app_le.
    + rewrite length_app. lia.
  - specialize (Hfull1 eq_refl). subst k1.
    destruct (H2 w1) as (r2 & w2 & k2 & -> & Hs2 & Hlog2 & Hk2 & Hfull2).
    exists r2, w2, (length g1 + k2). split; [done|]. split_and!.
    + congruence.
    + rewrite take_app_add, concat_app, Hlog2, Hlog1.
      by rewrite firstn_all, app_assoc.
    + rewrite length_app. lia.
    + intros Hr. rewrite length_app, (Hfull2 Hr). done.
Qed.

Lemma emits_Output env c :
  fresh c → emits (errOf (Cmd_Output env c)) [[launch_ev c]].
Proof.
  intros [Hout _] w. unfold errOf, bind.
  destruct (Cmd_Output_run env c w) as (out & err & w' & -> & Hs & Hlog).
  rewrite Hout in Hlog. exists err, w', 1. split; [done|]. simpl. done.
Qed.

Lemma emits_pipe env c1 c2 :
  fresh c1 → fresh c2 →
  emits (errOf (pipeCommands env [c1; c2])) [[launch_ev c1; launch_ev c2]].
Proof.
  intros Hf1 [Hout2 Hp2] w. unfold errOf, pipeCommands, bind. simpl. unfold bind.
  destruct (Cmd_StdoutPipe_run c1 w)
    as (c1' & out & err & w1 & -> & Hlog1 & Hs1 & HP1 & HA1 & Hfresh).
  rewrite (Hfresh Hf1).
  destruct (Cmd_Start_run env c1' w1) as (c1'' & err1 & w2 & -> & Hlog2 & Hs2 & _).
  simpl.
  destruct (Cmd_Output_run env (set_Stdin out c2) w2)
    as (o & err2 & w3 & -> & Hs3 & Hlog3).
  simpl in Hlog3. rewrite Hout2 in Hlog3.
  exists err2, w3, 1.
  split; [by destruct err2|]. simpl. split_and!; try done.
  - congruence.
  - rewrite Hlog3, Hlog2, Hlog1, <- app_assoc. unfold launch_ev.
    by rewrite HP1, HA1.
Qed.

Lemma exec_Command_fresh env name args : fresh (exec_Command env name args).
Proof. by split. Qed.

Lemma emits_leaves env cfg certs l :
  emits (GenerateCerts_range env cfg certs l)
        ((λ name, launch_ev <$> leafCommands env cfg certs name) <$> l).
Proof.
  induction l as [|name l IH]; [apply emits_ret|].
  apply (emits_check _ _ [_] _); [|exact IH].
  apply emits_pipe; apply exec_Command_fresh.
Qed.

Lemma emits_stages env cfg certs :
  emits (check! errOf (pipeCommands env (caCommands env cfg certs));
         check! GenerateCerts_range env cfg certs leafNames;
         check! errOf (Cmd_Output env (cmdConvertNodePkcs8 env certs));
         check! errOf (Cmd_Output env (cmdConvertSgadmin env certs));
         check! errOf (Cmd_Output env (cmdConvertNode env certs));
         check! errOf (Cmd_Output env (cmdCAJKS env certs));
         check! errOf (Cmd_Output env (cmdSgadminJKS env certs));
         check! errOf (Cmd_Output env (cmdNodeJKS env certs));
         ret None)
        (stages env cfg certs).
Proof.
  unfold stages. apply emits_check.
  { apply emits_pipe; apply exec_Command_fresh. }
  apply emits_check; [apply emits_leaves|].
  repeat (apply (emits_check _ _ [_] _);
          [apply emits_Output, exec_Command_fresh|]).
  apply emits_ret.
Qed.

(** Every run of [GenerateCerts] returns, and its trace is: the events of
    the two cleanups, the events of the descriptor stage, then the
    launches of the first [k] stages, all of them when it returns nil.
    No launch happens unless all six descriptors were written. *)
Lemma GenerateCerts_trace env cfg certs ns cn w :
  ∃ r w' t_clean t_cfg k,
    GenerateCerts env cfg certs ns cn w = Ret r w'
    ∧ w_secrets w' = w_secrets w
    ∧ w_log w' = w_log w ++ t_clean ++ t_cfg
                   ++ concat (take k (stages env cfg certs))
    ∧ Forall (λ e, cleanup_ev e = true) t_clean
    ∧ EvOpen certs ∈ t_clean ∧ EvOpen cfg ∈ t_clean
    ∧ Forall (λ e, config_ev e = true) t_cfg
    ∧ (∀ p c, EvWrite p c ∈ t_cfg →
              ∃ n, p = cfg // n ∧ (n, c) ∈ descriptors env ns cn)
    ∧ (0 < k → ∀ n c, (n, c) ∈ descriptors env ns cn →
                      EvWrite (cfg // n) c ∈ t_cfg)
    ∧ (k ≤ length (stages env cfg certs))%nat
    ∧ (r = None → k = length (stages env cfg certs)).
Proof.
  unfold GenerateCerts. unfold bind at 1.
  destruct (cleanUp_run certs w) as (r1 & w1 & -> & _ & Hs1 & (t1 & Hlog1 & Ht1) & _).
  unfold bind at 1.
  destruct (cleanUp_run cfg w1) as (r2 & w2 & -> & _ & Hs2 & (t2 & Hlog2 & Ht2) & _).
  unfold bind at 1. rewrite generateConfig_eq.
  destruct (write_files_run cfg (descriptors env ns cn) w2)
    as (r3 & w3 & -> & _ & Hs3 & _ & t3 & Hlog3 & Ht3 & Hw3 & Hok3).
  assert (Hclean : Forall (λ e, cleanup_ev e = true)
                     ((EvOpen certs :: t1) ++ EvOpen cfg :: t2)).
  { apply Forall_app. split; by constructor. }
  assert (Hin1 : EvOpen certs ∈ (EvOpen certs :: t1) ++ EvOpen cfg :: t2)
    by (apply elem_of_app; left; by left).
  assert (Hin2 : EvOpen cfg ∈ (EvOpen certs :: t1) ++ EvOpen cfg :: t2)
    by (apply elem_of_app; right; by left).
  destruct r3 as [e|].
  - exists (Some e), w3, ((EvOpen certs :: t1) ++ EvOpen cfg :: t2), t3, 0.
    split; [done|]. split_and!; try done; try lia; try congruence.
    simpl. rewrite app_nil_r, Hlog3, Hlog2, Hlog1, <- !app_assoc. done.
  - destruct (emits_stages env cfg certs w3)
      as (r & w' & k & Hrun & Hs & Hlog & Hk & Hfull).
    exists r, w', ((EvOpen certs :: t1) ++ EvOpen cfg :: t2), t3, k.
    split; [exact Hrun|]. split_and!; try done; try congruence.
    + rewrite Hlog, Hlog3, Hlog2, Hlog1, <- !app_assoc. done.
    + intros _. by apply Hok3.
Qed.

Lemma trace_of_app {A} (m : Go A) w r w' t :
  m w = Ret r w' → w_log w' = w_log w ++ t → trace_of m w = t.
Proof.
  intros Hrun Hlog. unfold trace_of. rewrite Hrun, Hlog. apply drop_app_length.
Qed.

Lemma concat_take_subseteq {A} k (groups : list (list A)) x :
  x ∈ concat (take k groups) → x ∈ concat groups.
Proof.
  rewrite <- (take_drop k groups) at 2. rewrite concat_app, elem_of_app. auto.
Qed.

Lemma GenerateCerts_events env cfg certs ns cn w e :
  e ∈ trace_of (GenerateCerts env cfg certs ns cn) w →
  cleanup_ev e = true ∨ config_ev e = true ∨ e ∈ concat (stages env cfg certs).
Proof.
  destruct (GenerateCerts_trace env cfg certs ns cn w)
    as (r & w' & t1 & t2 & k & Hrun & _ & Hlog & Ht1 & _ & _ & Ht2 & _).
  rewrite (trace_of_app _ _ _ _ _ Hrun Hlog), !elem_of_app.
  rewrite Forall_forall in Ht1, Ht2.
  intros [H|[H|H]]; eauto using concat_take_subseteq.
Qed.

Lemma GenerateCerts_launches env cfg certs ns cn w exe args :
  EvStart exe args ∈ trace_of (GenerateCerts env cfg certs ns cn) w →
  EvStart exe args ∈ concat (stages env cfg certs).
Proof.
  intros H. by apply GenerateCerts_events in H as [?|[?|?]].
Qed.


Lemma sorted_by_measure {A} (f : A → nat) (l : list A) :
  StronglySorted le (f <$> l) → StronglySorted (λ a b, f a ≤ f b)%nat l.
Proof.
  induction l as [|x l IH]; [constructor|].
  rewrite fmap_cons. intros H. apply StronglySorted_inv in H as [Hl Hx].
  constructor; [auto|]. by rewrite Forall_fmap in Hx.
Qed.

Lemma sorted_constant {A} (f : A → nat) (c : nat) (l : list A) :
  Forall (λ x, f x = c) l → StronglySorted (λ a b, f a ≤ f b)%nat l.
Proof.
  induction 1 as [|x l Hx Hl IH]; constructor; [done|].
  eapply Forall_impl; [exact Hl|]. simpl. intros y Hy. lia.
Qed.

Lemma stages_sorted env cfg certs :
  StronglySorted in_order (concat (stages env cfg certs)).
Proof.
  apply (sorted_by_measure (rank ∘ stage_of)). vm_compute.
  repeat (constructor; [|repeat constructor]). constructor.
Qed.

Lemma stages_are_launches env cfg certs e :
  e ∈ concat (stages env cfg certs) → (2 ≤ rank (stage_of e))%nat.
Proof.
  revert e. apply Forall_forall.
  apply (Forall_fmap (rank ∘ stage_of) (λ n, 2 ≤ n)%nat). vm_compute.
  repeat (constructor; [lia|]). constructor.
Qed.

Lemma ReadFile_run p w :
  ioutil_ReadFile p w = Ret (read_result w p) (emit (EvReadFile p) w).
Proof.
  unfold ioutil_ReadFile, read_result. go_step.
  destruct (w_fs w !! p_dir p) as [d|]; [|done].
  destruct (assoc (p_name p) (d_entries d)) as [[[] ?]|]; done.
Qed.

Lemma bind_ReadFile {B} p (k : content * option error → Go B) w :
  bind (ioutil_ReadFile p) k w = k (read_result w p) (emit (EvReadFile p) w).
Proof. unfold bind. by rewrite ReadFile_run. Qed.

Lemma read_result_emit e w p : read_result (emit e w) p = read_result w p.
Proof. done. Qed.

Lemma read_missing_is_empty w p :
  (read_result w p).2 = Some (ErrNotExist p) → (read_result w p).1 = no_bytes.
Proof.
  unfold read_result. destruct (w_fs w !! p_dir p) as [d|]; [|done].
  destruct (assoc (p_name p) (d_entries d)) as [[[] ?]|]; done.
Qed.

(** One [ReadFile] of [CreateCertsSecret]. *)
Ltac read_step f c :=
  rewrite bind_ReadFile, ?read_result_emit;
  destruct (read_result _ (_ // f)) as [c ?] eqn:?; cbv beta iota.

(** All that [CreateCertsSecret] adds to the trace are reads and the call
    to the secret store. *)
Lemma CreateCertsSecret_trace env ns cn certs w :
  ∃ r w' t, CreateCertsSecret env ns cn certs w = Ret r w'
    ∧ w_log w' = w_log w ++ t
    ∧ Forall (λ e, stage_of e = Assemble) t.
Proof.
  unfold CreateCertsSecret. cbv beta.
  read_step "node-keystore.jks" c1.
  destruct o as [e1|].
  { eexists _, _, _. split; [reflexivity|]. split; [reflexivity|].
    by repeat constructor. }
  read_step "sgadmin-keystore.jks" c2.
  destruct o as [e2|].
  { eexists _, _, _. split; [reflexivity|]. simpl. rewrite <- !app_assoc.
    split; [reflexivity|]. by repeat constructor. }
  read_step "truststore.jks" c3. read_step "ca.pem" c4. read_step "ca-key.pem" c5.
  read_step "node.pem" c6. read_step "node-key.pem" c7.
  read_step "node-key.pkcs8.pem" c8. read_step "sgadmin.pem" c9.
  read_step "sgadmin-key.pem" c10. read_step "kibana-key.pem" c11.
  read_step "kibana.pem" c12. read_step "cerebro-key.pem" c13.
  read_step "cerebro.pem" c14.
  unfold Secrets_Create. go_step.
  destruct (w_secrets w !! _) as [old|]; simpl;
    eexists _, _, _; (split; [reflexivity|]); simpl; rewrite <- !app_assoc;
    (split; [reflexivity|]); by repeat constructor.
Qed.

(** C6. Every execution of [GenerateCerts] returns, and its trace is, in
    this order: the events of the cleanup of both directories, the events
    of the descriptor stage, and the launches of the first [k] stages of
    CA issuance, issuance for node, kibana, cerebro and sgadmin, and the
    six conversions.  A launch happens only after all six descriptors
    were written; the run returns nil only after all the stages; no event
    of a stage is followed by an event of an earlier stage, and this still
    holds with the events of a bundle assembly that follows the run. *)
Theorem provisioning_stage_order (env : Env) (cfg certs ns cn : string) (w : World) :
  ∃ r w' t_clean t_cfg k,
    GenerateCerts env cfg certs ns cn w = Ret r w'
    ∧ trace_of (GenerateCerts env cfg certs ns cn) w
      = t_clean ++ t_cfg ++ concat (take k (stages env cfg certs))
    ∧ Forall (λ e, stage_of e = Cleanup) t_clean
    ∧ EvOpen certs ∈ t_clean ∧ EvOpen cfg ∈ t_clean
    ∧ Forall (λ e, stage_of e = Config) t_cfg
    ∧ (0 < k → ∀ n c, (n, c) ∈ descriptors env ns cn →
                      EvWrite (cfg // n) c ∈ t_cfg)
    ∧ (r = None → k = length (stages env cfg certs))
    ∧ (map (map stage_of) (stages env cfg certs))
      = [[IssueCA; IssueCA]; [IssueLeaf; IssueLeaf]; [IssueLeaf; IssueLeaf];
         [IssueLeaf; IssueLeaf]; [IssueLeaf; IssueLeaf];
         [Convert]; [Convert]; [Convert]; [Convert]; [Convert]; [Convert]]
    ∧ StronglySorted in_order (trace_of (GenerateCerts env cfg certs ns cn) w)
    ∧ StronglySorted in_order
        (trace_of (GenerateCerts env cfg certs ns cn) w
         ++ trace_of (CreateCertsSecret env ns cn certs) w').
Proof.
  destruct (GenerateCerts_trace env cfg certs ns cn w)
    as (r & w' & t1 & t2 & k & Hrun & _ & Hlog & Ht1 & Hc1 & Hc2 & Ht2 & _
        & Hcfg & _ & Hfull).
  assert (Hs1 : Forall (λ e, stage_of e = Cleanup) t1).
  { eapply Forall_impl; [exact Ht1|]. by intros []. }
  assert (Hs2 : Forall (λ e, stage_of e = Config) t2).
  { eapply Forall_impl; [exact Ht2|]. by intros []. }
  assert (Hs3 : StronglySorted in_order (concat (take k (stages env cfg certs)))).
  { pose proof (stages_sorted env cfg certs) as H.
    rewrite <- (take_drop k (stages env cfg certs)), concat_app in H.
    by apply StronglySorted_app_1_l in H. }
  exists r, w', t1, t2, k. rewrite (trace_of_app _ _ _ _ _ Hrun Hlog).
  assert (Hsorted : StronglySorted in_order
                      (t1 ++ t2 ++ concat (take k (stages env cfg certs)))).
  2: { split_and!; try done.
       destruct (CreateCertsSecret_trace env ns cn certs w')
         as (r' & w'' & t & Hrun' & Hlog' & Ht).
       rewrite (trace_of_app _ _ _ _ _ Hrun' Hlog').
       rewrite Forall_forall in Ht.
       apply StronglySorted_app_2; [|done|].
       - intros x1 x2 _ H2. unfold in_order. rewrite (Ht x2 H2).
         destruct (stage_of x1); simpl; lia.
       - apply (sorted_constant (rank ∘ stage_of) 5), Forall_forall.
         intros x Hx. simpl. by rewrite (Ht x Hx). }
  rewrite Forall_forall in Hs1, Hs2.
  apply StronglySorted_app_2; [| |apply StronglySorted_app_2].
  - intros x1 x2 H1 _. unfold in_order. rewrite (Hs1 x1 H1). simpl. lia.
  - apply (sorted_constant (rank ∘ stage_of) 0), Forall_forall.
    intros x Hx. simpl. by rewrite (Hs1 x Hx).
  - intros x1 x2 H1 H2. unfold in_order. rewrite (Hs2 x1 H1). simpl.
    apply concat_take_subseteq, stages_are_launches in H2. lia.
  - apply (sorted_constant (rank ∘ stage_of) 1), Forall_forall.
    intros x Hx. simpl. by rewrite (Hs2 x Hx).
  - exact Hs3.
Qed.

Lemma provisioning_stage_order_example :
  ∃ w', GenerateCerts std_env "/cfg" "/certs" "logging" "prod" w_clean = Ret None w'
      ∧ StronglySorted in_order
          (trace_of (GenerateCerts std_env "/cfg" "/certs" "logging" "prod") w_clean).
Proof.
  destruct (provisioning_stage_order std_env "/cfg" "/certs" "logging" "prod" w_clean)
    as (r & w' & t1 & t2 & k & Hrun & _ & _ & _ & _ & _ & _ & _ & _ & Hsorted & _).
  exists w'. split; [|exact Hsorted].
  rewrite Hrun. f_equal.
  assert (H : match GenerateCerts std_env "/cfg" "/certs" "logging" "prod" w_clean with
              | Ret x _ => x
              | Panic _ => None
              end = None) by (vm_compute; reflexivity).
  by rewrite Hrun in H.
Defined.

(** *** The password of the keystores *)

Lemma stages_passwords env cfg certs :
  forallb password_ok (concat (stages env cfg certs)) = true.
Proof. reflexivity. Qed.

Lemma is_changeit_spec a :
  is_changeit a = true → a = Lit "changeit" ∨ a = Lit "pass:changeit".
Proof.
  destruct a as [s|p]; [|done]. simpl. intros H.
  apply orb_true_iff in H as [H|H]; apply String.eqb_eq in H; subst; auto.
Qed.

(** C9. Every PKCS12 export and every keystore operation that a run of
    [GenerateCerts] launches carries a password option, and each password
    option it carries has the literal changeit ([pass:changeit] in the
    syntax of openssl), whatever the directories, the namespace, the
    cluster name and the environment. *)
Theorem keystore_password_is_changeit
    (env : Env) (cfg certs ns cn : string) (w : World)
    (exe : string) (args : list arg) :
  EvStart exe args ∈ trace_of (GenerateCerts env cfg certs ns cn) w →
  is_keystore (EvStart exe args) = true →
  passwords args ≠ []
  ∧ ∀ a, a ∈ passwords args → a = Lit "changeit" ∨ a = Lit "pass:changeit".
Proof.
  intros Hin Hks. apply GenerateCerts_launches in Hin.
  pose proof (stages_passwords env cfg certs) as Hall.
  rewrite forallb_forall in Hall.
  apply list_elem_of_In, Hall in Hin. unfold password_ok in Hin.
  rewrite Hks in Hin. destruct (passwords args) as [|a pws]; [done|].
  split; [done|]. intros b Hb. apply is_changeit_spec.
  rewrite forallb_forall in Hin. by apply Hin, list_elem_of_In.
Qed.

Lemma keystore_password_is_changeit_example :
  passwords (Args (cmdNodeJKS std_env "/certs"))
  = [Lit "changeit"; Lit "changeit"]
  ∧ ∀ a, a ∈ passwords (Args (cmdNodeJKS std_env "/certs")) →
         a = Lit "changeit" ∨ a = Lit "pass:changeit".
Proof.
  split; [reflexivity|].
  apply (keystore_password_is_changeit std_env "/cfg" "/certs" "logging" "prod"
           w_clean "keytool" (Args (cmdNodeJKS std_env "/certs"))).
  - vm_compute. elem_here.
  - reflexivity.
Defined.

(** *** Which identity gets which form *)







(** C3, evaluated where it fails.  An entry of the certs directory
    refuses removal: [cleanUp] reports it, [GenerateCerts] goes on and
    returns nil, and the stale entries are still there.  And where the
    configuration directory is missing, [generateConfig] stops after the
    first [os.Create], returning the error of the [Write] on the nil
    file in place of the error of the creation. *)
Theorem GenerateCerts_drops_cleanup_failure :
  (∃ w1, cleanUp "/certs" w_stale
           = Ret (Some (ErrPermission ("/certs" // "node-keystore.jks"))) w1)
  ∧ (∃ w', GenerateCerts std_env "/cfg" "/certs" "logging" "prod" w_stale
             = Ret None w'
         ∧ ∃ d, w_fs w' !! "/certs" = Some d
              ∧ assoc "tmp" (d_entries d) = Some (mkEntry Subtree false))
  ∧ (∃ w', generateConfig std_env "/cfg" "/certs" "logging" "prod" w_nocfg
             = Ret (Some ErrInvalid) w'
         ∧ w_log w' = [EvCreate ("/cfg" // "ca-config.json")]).
Proof.
  split_and!.
  - vm_compute. eauto.
  - eexists. split; [vm_compute; reflexivity|]. eexists. split; vm_compute; reflexivity.
  - eexists. split; vm_compute; reflexivity.
Qed.

(** *** CreateCertsSecret *)

Lemma artifacts_NoDup : NoDup artifacts.
Proof. apply (bool_decide_unpack _). by vm_compute. Qed.

(** C2. [CreateCertsSecret] always returns.  When [node-keystore.jks], or
    else [sgadmin-keystore.jks], cannot be read it returns the error of that
    read and the secret store is as it was.  Otherwise the bundle goes to
    the store, whose answer is returned: when the store takes it, the
    result is nil and the stored bundle maps exactly the fourteen artifact
    names, each to what [ReadFile] returned for it, which is no bytes for
    a file that does not exist. *)
Theorem bundle_assembly (env : Env) (ns cn certs : string) (w : World) :
  let name := secretName env +:+ "-" +:+ cn in
  let read := λ n, read_result w (certs // n) in
  ∃ r w', CreateCertsSecret env ns cn certs w = Ret r w' ∧
    match (read "node-keystore.jks").2, (read "sgadmin-keystore.jks").2 with
    | Some e, _ | None, Some e => r = Some e ∧ w_secrets w' = w_secrets w
    | None, None =>
        match w_secrets w !! (ns, name) with
        | Some _ =>
            r = Some (ErrAlreadyExists ns name) ∧ w_secrets w' = w_secrets w
        | None =>
            r = None
            ∧ ∃ bundle,
                w_secrets w' = <[(ns, name) := mkSecret name bundle]> (w_secrets w)
                ∧ dom bundle = list_to_set artifacts
                ∧ (∀ n, n ∈ artifacts → bundle !! n = Some (read n).1)
                ∧ (∀ n, n ∈ artifacts →
                        (read n).2 = Some (ErrNotExist (certs // n)) →
                        bundle !! n = Some no_bytes)
        end
    end.
Proof.
  intros name read. subst read. unfold CreateCertsSecret. cbv beta.
  read_step "node-keystore.jks" c1.
  destruct o as [e1|].
  { eexists _, _. split; [reflexivity|]. done. }
  read_step "sgadmin-keystore.jks" c2.
  destruct o as [e2|].
  { eexists _, _. split; [reflexivity|]. done. }
  read_step "truststore.jks" c3. read_step "ca.pem" c4. read_step "ca-key.pem" c5.
  read_step "node.pem" c6. read_step "node-key.pem" c7.
  read_step "node-key.pkcs8.pem" c8. read_step "sgadmin.pem" c9.
  read_step "sgadmin-key.pem" c10. read_step "kibana-key.pem" c11.
  read_step "kibana.pem" c12. read_step "cerebro-key.pem" c13. read_step "cerebro.pem" c14.
  unfold Secrets_Create. go_step. fold name.
  destruct (w_secrets w !! (ns, name)) as [old|] eqn:Hold; simpl.
  { eexists _, _. split; [reflexivity|]. done. }
  eexists _, _. split; [reflexivity|]. split; [done|]. simpl.
  eexists. split; [reflexivity|].
  assert (Hread : ∀ n, n ∈ artifacts →
            (list_to_map
               [("node-keystore.jks", c1); ("sgadmin-keystore.jks", c2);
                ("truststore.jks", c3); ("ca.pem", c4); ("ca-key.pem", c5);
                ("node.pem", c6); ("node-key.pem", c7);
                ("node-key.pkcs8.pem", c8); ("sgadmin.pem", c9);
                ("sgadmin-key.pem", c10); ("kibana-key.pem", c11);
                ("kibana.pem", c12); ("cerebro-key.pem", c13);
                ("cerebro.pem", c14)] : gmap string content) !! n
            = Some (read_result w (certs // n)).1).
  { intros n Hn. apply elem_of_list_to_map_1; [apply artifacts_NoDup|].
    unfold artifacts in Hn.
    repeat (apply elem_of_cons in Hn as [->|Hn];
            [match goal with
             | H : read_result w (certs // ?f) = _ |- (?f, _) ∈ _ => rewrite H
             end; simpl; elem_here|]).
    by apply elem_of_nil in Hn. }
  split_and!.
  - by rewrite !dom_insert_L, dom_empty_L.
  - exact Hread.
  - intros n Hn Hmiss.
    transitivity (Some (read_result w (certs // n)).1); [exact (Hread n Hn)|].
    f_equal. by apply read_missing_is_empty.
Qed.

Lemma bundle_assembly_example :
  (∃ w', CreateCertsSecret std_env "logging" "prod" "/certs" w_nokeystore
           = Ret (Some (ErrNotExist ("/certs" // "node-keystore.jks"))) w'
       ∧ w_secrets w' = ∅)
  ∧ ∃ w' s, CreateCertsSecret std_env "logging" "prod" "/certs" w_partial
              = Ret None w'
          ∧ w_secrets w' !! ("logging", "es-certs-prod") = Some s
          ∧ s_data s !! "kibana.pem" = Some no_bytes
          ∧ s_data s !! "node-keystore.jks" = Some (Blob "nks").
Proof.
  split.
  - destruct (bundle_assembly std_env "logging" "prod" "/certs" w_nokeystore)
      as (r & w' & Hrun & Hcase).
    vm_compute in Hcase. destruct Hcase as [-> Hs].
    exists w'. split; [exact Hrun|exact Hs].
  - destruct (bundle_assembly std_env "logging" "prod" "/certs" w_partial)
      as (r & w' & Hrun & Hcase).
    cbv zeta in Hcase.
    change (read_result w_partial ("/certs" // "node-keystore.jks")).2
      with (@None error) in Hcase.
    change (read_result w_partial ("/certs" // "sgadmin-keystore.jks")).2
      with (@None error) in Hcase.
    change (w_secrets w_partial !! ("logging", secretName std_env +:+ "-" +:+ "prod"))
      with (@None Secret) in Hcase.
    destruct Hcase as (-> & bundle & Hs & _ & Hread & Hmiss).
    exists w', (mkSecret "es-certs-prod" bundle). split; [exact Hrun|].
    split_and!.
    + rewrite Hs. apply lookup_insert_eq.
    + apply Hmiss; [elem_here|reflexivity].
    + rewrite Hread by elem_here. reflexivity.
Defined.

(* ===================================================================== *)
(** ** Further properties                                                 *)
(* ===================================================================== *)

(** *** The descriptors and the commands that read them *)

Section DescriptorContents.

Context (env : Env) (cfg certs ns cn : string).
Hypothesis range_visits_each_once : map_range env leafFiles ≡ₚ leafFiles.


(** For each identity of the issuance loop of [GenerateCerts], the
    request file its cfssl command names last is the descriptor
    [generateConfig] writes for the same identity: its CN is the identity
    and its one distinguished name has O, OU and L only.  The command's
    [-config] file is the signing policy. *)
Theorem leaf_request_matches_descriptor (w : World) (name : string) :
  name ∈ leafNames →
  ∃ c j, leafCommands env cfg certs name !! 0 = Some c
     ∧ last (Args c) = Some (File (cfg // ("req-" +:+ name +:+ "-csr.json")))
     ∧ file_after "-config" (Args c) = Some (cfg // "ca-config.json")
     ∧ json_field "CN" j = Some (JStr name)
     ∧ json_field "names" j
       = Some (JArr [JObj [("O", JStr "autogenerated");
                           ("OU", JStr "elasticsearch cluster");
                           ("L", JStr "operator")]])
     ∧ (∀ w', generateConfig env cfg certs ns cn w = Ret None w' →
              file_content w' (cfg // ("req-" +:+ name +:+ "-csr.json"))
              = Some (Doc j)
              ∧ file_content w' (cfg // "ca-config.json")
                = Some (Doc (marshal_caconfig caConfig))).
Proof.
  intros Hname. eexists _, (marshal_csr (leafCSR name ns cn)).
  split; [reflexivity|].
  assert (Hin : (name, "req-" +:+ name +:+ "-csr.json") ∈ leafFiles).
  { unfold leafNames, leafFiles in *.
    repeat (apply elem_of_cons in Hname as [->|Hname]; [by elem_here|]).
    by apply elem_of_nil in Hname. }
  split_and!; try done.
  - unfold leafNames in Hname.
    repeat (apply elem_of_cons in Hname as [->|Hname]; [reflexivity|]).
    by apply elem_of_nil in Hname.
  - unfold leafNames in Hname.
    repeat (apply elem_of_cons in Hname as [->|Hname]; [reflexivity|]).
    by apply elem_of_nil in Hname.
  - intros w' Hrun.
    pose proof (generateConfig_files env cfg certs ns cn
                  range_visits_each_once w w' Hrun) as Hfiles.
    split; apply Hfiles; [by apply descriptors_leaf|by left].
Qed.

End DescriptorContents.


Lemma leaf_request_matches_descriptor_example :
  ∃ j, json_field "CN" j = Some (JStr "cerebro")
     ∧ file_content
         (after (generateConfig std_env "/cfg" "/certs" "logging" "prod") w_clean)
         ("/cfg" // "req-cerebro-csr.json") = Some (Doc j).
Proof.
  destruct (leaf_request_matches_descriptor std_env "/cfg" "/certs" "logging" "prod"
              (reflexivity _) w_clean "cerebro")
    as (c & j & _ & _ & _ & Hcn & _ & Hfile).
  - unfold leafNames. elem_here.
  - exists j. split; [exact Hcn|]. apply Hfile. vm_compute. reflexivity.
Defined.

(** *** What generateConfig changes, and how it fails *)

Lemma entry_at_frame w w' p p' d l u :
  w_fs w !! p_dir p = Some d →
  w_fs w' = <[p_dir p := mkDir l u]> (w_fs w) →
  (p_dir p = p_dir p' → assoc (p_name p') l = assoc (p_name p') (d_entries d)) →
  entry_at w' p' = entry_at w p'.
Proof.
  intros Hd Hfs Hl. unfold entry_at. rewrite Hfs.
  destruct (decide (p_dir p = p_dir p')) as [Heq|Hdir].
  - rewrite <- Heq, lookup_insert_eq, Hd. simpl. by apply Hl.
  - by rewrite lookup_insert_ne.
Qed.

Lemma is_Some_insert_present (fs : gmap string directory) k d0 d1 d :
  fs !! k = Some d0 → is_Some (<[k := d1]> fs !! d) ↔ is_Some (fs !! d).
Proof.
  intros Hk. destruct (decide (k = d)) as [<-|Hne].
  - rewrite lookup_insert_eq, Hk. split; eauto.
  - by rewrite lookup_insert_ne.
Qed.

Lemma write_one_exact p c w :
  ∃ r w', (bind (os_Create p) (λ x, File_Write x.1 c)) w = Ret r w'
    ∧ w_pipes w' = w_pipes w ∧ w_secrets w' = w_secrets w
    ∧ (∀ p', p' ≠ p → entry_at w' p' = entry_at w p')
    ∧ (∀ d, is_Some (w_fs w' !! d) ↔ is_Some (w_fs w !! d))
    ∧ match r with
      | None => w_log w' = w_log w ++ [EvCreate p; EvWrite p c]
      | Some e => e = ErrInvalid ∧ w_fs w' = w_fs w
                  ∧ w_log w' = w_log w ++ [EvCreate p] ∧ blocked w p
      end.
Proof.
  assert (Hok : ∀ d pin,
    w_fs w !! p_dir p = Some d →
    let w' := mkWorld (<[p_dir p := mkDir
                 (set_entry (p_name p) (mkEntry (Regular c) pin)
                    (set_entry (p_name p) (mkEntry (Regular no_bytes) pin)
                       (d_entries d))) (d_unlistable d)]> (w_fs w))
                (w_pipes w) (w_secrets w)
                (w_log w ++ [EvCreate p; EvWrite p c]) in
    (∀ p', p' ≠ p → entry_at w' p' = entry_at w p')
    ∧ (∀ d', is_Some (w_fs w' !! d') ↔ is_Some (w_fs w !! d'))).
  { intros d pin Hd w'. split.
    - intros p' Hne. eapply entry_at_frame; [exact Hd|reflexivity|].
      intros Heq. pose proof (path_name_ne _ _ Hne Heq).
      by rewrite !assoc_set_entry_ne.
    - intros d'. by apply (is_Some_insert_present _ _ d). }
  unfold os_Create, File_Write, blocked. go_step.
  destruct (w_fs w !! p_dir p) as [d|] eqn:Hd; simpl.
  - destruct (assoc (p_name p) (d_entries d)) as [[nd pin]|] eqn:Hn; simpl.
    + destruct (Hok d pin eq_refl) as [Hframe Hdirs].
      destruct nd; simpl.
      1,2: rewrite lookup_insert_eq; simpl; rewrite assoc_set_entry_eq;
        world_simpl; rewrite insert_insert_eq, <- app_assoc;
        eexists _, _; (split; [reflexivity|]); simpl; split_and!; done.
      eexists _, _. split; [reflexivity|]. simpl. split_and!; try done.
      by exists pin.
    + destruct (Hok d false eq_refl) as [Hframe Hdirs].
      rewrite lookup_insert_eq. simpl. rewrite assoc_set_entry_eq.
      world_simpl. rewrite insert_insert_eq, <- app_assoc.
      eexists _, _. split; [reflexivity|]. simpl. split_and!; done.
  - eexists _, _. split; [reflexivity|]. simpl. split_and!; done.
Qed.

Lemma write_files_exact dir plan : ∀ w,
  ∃ r w', write_files dir plan w = Ret r w'
    ∧ w_pipes w' = w_pipes w ∧ w_secrets w' = w_secrets w
    ∧ (∀ p', p' ∉ (mkPath dir <$> plan.*1) → entry_at w' p' = entry_at w p')
    ∧ (∀ d, is_Some (w_fs w' !! d) ↔ is_Some (w_fs w !! d))
    ∧ match r with
      | None => w_log w' = w_log w ++ write_events dir plan
      | Some e =>
          e = ErrInvalid
          ∧ ∃ done n c rest,
              plan = done ++ (n, c) :: rest
              ∧ w_log w' = w_log w ++ write_events dir done ++ [EvCreate (dir // n)]
              ∧ blocked w' (dir // n)
      end.
Proof.
  induction plan as [|[n c] plan IH]; intros w.
  - exists None, w. simpl. split; [done|]. split_and!; try done.
    unfold write_events. simpl. by rewrite app_nil_r.
  - rewrite write_files_cons.
    destruct (write_one_exact (dir // n) c w)
      as (r1 & w1 & -> & Hp1 & Hs1 & Hframe1 & Hdirs1 & Hcase).
    destruct r1 as [e|].
    + destruct Hcase as (-> & Hfs & Hlog & Hblocked).
      exists (Some ErrInvalid), w1. split; [done|]. split_and!; try done.
      * intros p' Hp'. apply Hframe1. intros ->. apply Hp'. simpl. by left.
      * exists [], n, c, plan. split_and!; try done.
        unfold blocked in *. by rewrite Hfs.
    + destruct (IH w1) as (r & w' & Hrun & Hp & Hs & Hframe & Hdirs & Hcase').
      exists r, w'. split; [done|]. split_and!; try congruence.
      * intros p' Hp'. rewrite Hframe, Hframe1; [done| |].
        -- intros ->. apply Hp'. simpl. by left.
        -- intros Hin. apply Hp'. simpl. by right.
      * intros d. by rewrite Hdirs, Hdirs1.
      * destruct r as [e|].
        -- destruct Hcase' as (-> & done & n' & c' & rest & -> & Hlog & Hb).
           split; [done|]. exists ((n, c) :: done), n', c', rest.
           split_and!; try done.
           rewrite Hlog, Hcase. unfold write_events. simpl.
           by rewrite <- !app_assoc.
        -- rewrite Hcase', Hcase. unfold write_events. simpl.
           by rewrite <- !app_assoc.
Qed.



(** Whatever its result, [generateConfig] changes no entry other than the
    six descriptor files of the configuration directory, creates and
    removes no directory and leaves pipes and secret store alone.  When it
    succeeds it has created and written the policy, the CA descriptor and
    the leaf descriptors, in this order. *)
Theorem generateConfig_touches_only_descriptors
    (env : Env) (cfg certs ns cn : string) (w w' : World) (r : option error) :
  map_range env leafFiles ≡ₚ leafFiles →
  generateConfig env cfg certs ns cn w = Ret r w' →
  w_pipes w' = w_pipes w ∧ w_secrets w' = w_secrets w
  ∧ (∀ p, p ∉ (mkPath cfg <$> descriptor_names) → entry_at w' p = entry_at w p)
  ∧ (∀ d, is_Some (w_fs w' !! d) ↔ is_Some (w_fs w !! d))
  ∧ (r = None →
       trace_of (generateConfig env cfg certs ns cn) w
       = write_events cfg (descriptors env ns cn)).
Proof.
  intros Hperm Hrun.
  destruct (write_files_exact cfg (descriptors env ns cn) w)
    as (r1 & w1 & Hrun1 & Hp & Hs & Hframe & Hdirs & Hcase).
  rewrite <- (generateConfig_eq env cfg certs ns cn w), Hrun in Hrun1.
  injection Hrun1 as <- <-.
  split_and!; try done.
  - intros p Hp'. apply Hframe. intros Hin. apply Hp'.
    rewrite (descriptors_names env ns cn) in Hin.
    apply list_elem_of_fmap in Hin as (n & -> & Hn).
    apply list_elem_of_fmap. exists n. split; [done|].
    unfold descriptor_names.
    do 2 (apply elem_of_cons in Hn as [->|Hn]; [elem_here|]).
    rewrite Hperm in Hn. simpl in Hn. do 2 right. exact Hn.
  - intros ->. by apply (trace_of_app _ _ _ _ _ Hrun).
Qed.

Lemma generateConfig_touches_only_descriptors_example :
  entry_at (after (generateConfig std_env "/cfg" "/certs" "logging" "prod") w_stale)
           ("/certs" // "old.pem")
  = Some (file "x").
Proof.
  destruct (generateConfig_touches_only_descriptors std_env "/cfg" "/certs"
              "logging" "prod" w_stale
              (after (generateConfig std_env "/cfg" "/certs" "logging" "prod") w_stale)
              None (reflexivity _)) as (_ & _ & Hframe & _).
  - vm_compute. reflexivity.
  - rewrite Hframe; [reflexivity|].
    unfold descriptor_names. intros Hin.
    by apply list_elem_of_fmap in Hin as (n & [= Hdir _] & _).
Defined.

(** *** What cleanUp changes, and how it fails *)






Lemma cleanUp_success_empty dir w w1 :
  cleanUp dir w = Ret None w1 → w_fs w1 !! dir = Some empty_dir.
Proof.
  intros Hrun.
  destruct (cleanUp_run dir w) as (r & w1' & Hrun' & _ & _ & _ & Hcase).
  rewrite Hrun in Hrun'. injection Hrun' as <- <-.
  destruct (w_fs w !! dir) as [d|]; [|by destruct Hcase].
  destruct (d_unlistable d); [by destruct Hcase|].
  destruct Hcase as [Hr Hfs].
  destruct (sweep (d_entries d).*1 (d_entries d)) as [l1 [n|]] eqn:Hs; [done|].
  apply sweep_ok in Hs. rewrite filter_own_names in Hs. subst l1.
  simpl in Hfs. rewrite Hfs. apply lookup_insert_eq.
Qed.

Lemma file_content_entry w p c :
  file_content w p = Some c → is_Some (entry_at w p).
Proof.
  unfold file_content, entry_at. destruct (w_fs w !! p_dir p) as [d|]; [|done].
  destruct (assoc _ _); [eauto|done].
Qed.

(** After a successful cleanup of the configuration directory followed by
    a successful [generateConfig], as in the first steps of
    [GenerateCerts], the directory holds the six descriptor files and no
    other entry. *)
Theorem config_directory_after_regeneration
    (env : Env) (cfg certs ns cn : string) (w w1 w2 : World) :
  map_range env leafFiles ≡ₚ leafFiles →
  cleanUp cfg w = Ret None w1 →
  generateConfig env cfg certs ns cn w1 = Ret None w2 →
  ∀ n, is_Some (entry_at w2 (cfg // n)) ↔ n ∈ descriptor_names.
Proof.
  intros Hperm Hclean Hgen n.
  apply cleanUp_success_empty in Hclean.
  destruct (decide (n ∈ descriptor_names)) as [Hin|Hout].
  - split; [done|]. intros _.
    assert (Hd : ∃ c, (n, c) ∈ descriptors env ns cn).
    { assert (Hn : n ∈ (descriptors env ns cn).*1).
      { rewrite descriptors_names, Hperm. exact Hin. }
      apply list_elem_of_fmap in Hn as ([n' c] & -> & Hn). eauto. }
    destruct Hd as [c Hc].
    apply (file_content_entry _ _ c).
    by apply (generateConfig_files env cfg certs ns cn Hperm w1 w2 Hgen).
  - split; [|done]. intros Hsome. exfalso.
    destruct (write_files_exact cfg (descriptors env ns cn) w1)
      as (r & w' & Hrun & _ & _ & Hframe & _).
    rewrite <- (generateConfig_eq env cfg certs ns cn w1), Hgen in Hrun.
    injection Hrun as <- <-.
    rewrite Hframe in Hsome.
    + unfold entry_at in Hsome. simpl in Hsome. rewrite Hclean in Hsome.
      by destruct Hsome.
    + intros Hin. apply Hout.
      apply list_elem_of_fmap in Hin as (n' & [= <-] & Hn).
      by rewrite descriptors_names, Hperm in Hn.
Qed.

Lemma config_directory_after_regeneration_example :
  is_Some (entry_at
             (after (generateConfig std_env "/certs" "/certs" "logging" "prod")
                    (after (cleanUp "/certs") w_used))
             ("/certs" // "ca.pem"))
  ↔ "ca.pem" ∈ descriptor_names.
Proof.
  apply (config_directory_after_regeneration std_env "/certs" "/certs"
           "logging" "prod" w_used (after (cleanUp "/certs") w_used)).
  - reflexivity.
  - vm_compute. reflexivity.
  - vm_compute. reflexivity.
Defined.

(** *** Pipelines *)

(** A pipeline of two commands that can both be started runs the first on
    no input and the second on what the first wrote, in the file system the
    first left, and returns what the second wrote; when the second exits
    non-zero it returns that exit error and no bytes.  The exit code of the
    first command plays no part. *)
Theorem pipeline_of_two
    (env : Env) (n1 n2 : string) (a1 a2 : list arg) (w : World) :
  lookPath env n1 = None → lookPath env n2 = None →
  let r1 := run_tool env n1 (Lit n1 :: a1) InNull (w_fs w) in
  let r2 := run_tool env n2 (Lit n2 :: a2) (InPipe (Fed r1.2.1)) r1.1 in
  ∃ w', pipeCommands env [exec_Command env n1 a1; exec_Command env n2 a2] w
          = Ret match r2.2.2 with
                | 0 => (r2.2.1, None)
                | S code => ("", Some (ExitError (S code)))
                end w'
      ∧ w_fs w' = r2.1
      ∧ w_secrets w' = w_secrets w.
Proof.
  intros H1 H2 r1 r2. subst r1 r2.
  unfold pipeCommands, pipeCommands_range, Cmd_StdoutPipe, Cmd_Start, Cmd_Output,
    launch, exec_Command, set_pipe. go_step. rewrite H1, H2. simpl.
  destruct (run_tool env n1 (Lit n1 :: a1) InNull (w_fs w))
    as [fs1 [out1 code1]]. simpl.
  unfold read_end. simpl.
  rewrite list_lookup_insert_eq by (rewrite length_app; simpl; lia). simpl.
  destruct (run_tool env n2 (Lit n2 :: a2) (InPipe (Fed out1)) fs1)
    as [fs2 [out2 code2]]. simpl.
  destruct code2; eexists; (split; [reflexivity|]); done.
Qed.

Lemma pipeline_of_two_example :
  ∃ w', pipeCommands std_env
          [exec_Command std_env "echo" []; exec_Command std_env "cfssljson"
                                             [Lit "-bare"; File ("/certs" // "ca")]]
          w_clean = Ret ("", None) w'
      ∧ has_file (w_fs w') ("/certs" // "ca-key.pem") = true.
Proof.
  destruct (pipeline_of_two std_env "echo" "cfssljson" []
              [Lit "-bare"; File ("/certs" // "ca")] w_clean)
    as (w' & Hrun & Hfs & _); [reflexivity|reflexivity|].
  exists w'. split; [exact Hrun|]. rewrite Hfs. vm_compute. reflexivity.
Defined.

Lemma wired_refl c : wired c c.
Proof. exists (Stdin c). by destruct c. Qed.

Lemma wired_set_Stdin s c' c : wired c' c → wired (set_Stdin s c') c.
Proof. intros [s' ->]. by exists s. Qed.

Lemma wired_fresh c' c : wired c' c → fresh c → fresh c'.
Proof. by intros [s ->] [? ?]. Qed.

Lemma wired_launch_ev c' c : wired c' c → launch_ev c' = launch_ev c.
Proof. by intros [s ->]. Qed.

Lemma pipeCommands_range_trace env n : ∀ i cur cmds w,
  i + n < length cmds → length cur = length cmds →
  (∀ j c, (i ≤ j)%nat → cmds !! j = Some c →
          ∃ c', cur !! j = Some c' ∧ wired c' c) →
  Forall fresh cmds →
  ∃ cs w', pipeCommands_range env i n cur w = Ret (cs, None) w'
    ∧ length cs = length cmds
    ∧ (∀ j c, (i + n ≤ j)%nat → cmds !! j = Some c →
              ∃ c', cs !! j = Some c' ∧ wired c' c)
    ∧ w_log w' = w_log w ++ (launch_ev <$> take n (drop i cmds))
    ∧ w_secrets w' = w_secrets w.
Proof.
  induction n as [|n IH]; intros i cur cmds w Hlen Hcur Hinv Hfresh; simpl.
  - exists cur, w. split; [done|]. split_and!; try done.
    + intros j c Hj. apply Hinv. lia.
    + by rewrite app_nil_r.
  - destruct (lookup_lt_is_Some_2 cmds i) as [ci Hci]; [lia|].
    destruct (lookup_lt_is_Some_2 cmds (S i)) as [cn Hcn]; [lia|].
    destruct (Hinv i ci (le_n _) Hci) as (ci' & Hci' & Hwi).
    destruct (Hinv (S i) cn (le_S _ _ (le_n _)) Hcn) as (cn' & Hcn' & Hwn).
    rewrite Hci', Hcn'. unfold bind.
    destruct (Cmd_StdoutPipe_run ci' w)
      as (c1 & out & err & w1 & -> & Hlog1 & Hs1 & HP1 & HA1 & Hok).
    rewrite Forall_forall in Hfresh.
    rewrite Hok by (eapply wired_fresh; [exact Hwi|];
                    apply Hfresh; eapply list_elem_of_lookup_2; exact Hci).
    destruct (Cmd_Start_run env c1 w1) as (c2 & err2 & w2 & -> & Hlog2 & Hs2 & _).
    edestruct (IH (S i) (<[S i := set_Stdin out cn']> (<[i := c2]> cur)) cmds w2)
      as (cs & w' & Hrun & Hl & Hinv' & Hlog & Hs).
    { lia. }
    { by rewrite !length_insert. }
    { intros j c Hj Hc. destruct (decide (j = S i)) as [->|Hne].
      - rewrite Hcn in Hc. injection Hc as <-.
        rewrite list_lookup_insert_eq by (rewrite length_insert; lia).
        eexists. split; [done|]. by apply wired_set_Stdin.
      - rewrite !list_lookup_insert_ne by lia. apply Hinv; [lia|done]. }
    { by apply Forall_forall. }
    exists cs, w'. split; [exact Hrun|]. split_and!; try done.
    + intros j c Hj. apply Hinv'. lia.
    + rewrite Hlog, Hlog2, Hlog1, <- app_assoc.
      rewrite (drop_S cmds ci i Hci). simpl. f_equal. f_equal.
      rewrite <- (wired_launch_ev _ _ Hwi). unfold launch_ev.
      by rewrite HP1, HA1.
    + congruence.
Qed.

Lemma pipeCommands_unfold env commands w :
  commands ≠ [] →
  pipeCommands env commands w
  = match pipeCommands_range env 0 (length commands - 1) commands w with
    | Panic msg => Panic msg
    | Ret (_, Some e) w1 => Ret ("", Some e) w1
    | Ret (cs, None) w1 =>
        match cs !! (length cs - 1) with
        | None => Panic "index out of range"
        | Some last =>
            match Cmd_Output env last w1 with
            | Panic msg => Panic msg
            | Ret (_, Some e) w2 => Ret ("", Some e) w2
            | Ret (out, None) w2 => Ret (out, None) w2
            end
        end
    end.
Proof.
  intros Hne. destruct commands as [|c commands]; [done|].
  unfold pipeCommands, bind.
  destruct (pipeCommands_range _ _ _ _ _) as [|[cs [e|]] w1]; try done.
  destruct (cs !! _); [|done].
  by destruct (Cmd_Output _ _ _) as [|[out [e|]] w2].
Qed.

Lemma pipeCommands_fresh_run
    (env : Env) (commands : list Cmd) (w : World) :
  commands ≠ [] → Forall fresh commands →
  ∃ r w', pipeCommands env commands w = Ret r w'
    ∧ trace_of (pipeCommands env commands) w = launch_ev <$> commands
    ∧ w_secrets w' = w_secrets w
    ∧ ∀ c e, last commands = Some c → lookPathErr c = Some e →
             r = ("", Some e).
Proof.
  intros Hne Hfresh. rename commands into cmds.
  assert (Hlen : 0 < length cmds) by (destruct cmds; [done|simpl; lia]).
  destruct (pipeCommands_range_trace env (length cmds - 1) 0 cmds cmds w)
    as (cs & w1 & Hrange & Hl & Hinv & Hlog & Hs); [lia|done| |done|].
  { intros j c _ Hc. exists c. split; [done|apply wired_refl]. }
  destruct (lookup_lt_is_Some_2 cmds (length cmds - 1)) as [cl Hcl]; [lia|].
  destruct (Hinv (length cmds - 1) cl) as (cl' & Hcl' & Hw); [lia|done|].
  assert (Hfl : fresh cl).
  { rewrite Forall_forall in Hfresh. apply Hfresh.
    eapply list_elem_of_lookup_2. exact Hcl. }
  pose proof (wired_fresh _ _ Hw Hfl) as [Hout' Hproc'].
  destruct (Cmd_Output_run env cl' w1) as (out & err & w2 & Hout & Hs2 & Hlog2).
  rewrite Hout' in Hlog2.
  assert (Hrun : pipeCommands env cmds w
                 = Ret match err with Some e => ("", Some e) | None => (out, None) end
                       w2).
  { rewrite pipeCommands_unfold, Hrange, Hl, Hcl', Hout by done.
    by destruct err. }
  eexists _, w2. split; [exact Hrun|]. split_and!.
  - apply (trace_of_app _ _ _ _ _ Hrun).
    rewrite Hlog2, Hlog, <- app_assoc. f_equal. simpl.
    rewrite (wired_launch_ev _ _ Hw).
    rewrite <- (take_drop (length cmds - 1) cmds) at 3.
    rewrite fmap_app. f_equal.
    rewrite (drop_S cmds cl _ Hcl).
    rewrite drop_ge by lia. done.
  - congruence.
  - intros c e Hlast Hlook.
    assert (c = cl).
    { rewrite last_lookup in Hlast. replace (pred (length cmds)) with
        (length cmds - 1) in Hlast by lia. congruence. }
    subst c. destruct Hw as [s ->].
    revert Hout. unfold Cmd_Output, launch. go_step.
    rewrite Hout', Hlook.
    destruct (set_pipe_run None Shut (emit (EvStart (Path cl) (Args cl)) w1))
      as (w3 & Hsp & _).
    simpl in Hsp. intros [= <- <- <-]. done.
Qed.



(** *** Missing tools *)

Lemma never_nil_bind {A} (m : Go A) (k : A → Go (option error)) :
  (∀ a, never_nil (k a)) → never_nil (bind m k).
Proof.
  intros Hk w r w'. unfold bind. destruct (m w) as [|a w1]; [done|]. apply Hk.
Qed.

Lemma never_nil_check_here m k :
  never_nil m →
  never_nil (bind m (λ err, match err with Some e => ret (Some e) | None => k end)).
Proof.
  intros Hm w r w'. unfold bind. destruct (m w) as [|[e|] w1] eqn:Hrun; [done| |].
  - by intros [= <- _].
  - by apply Hm in Hrun.
Qed.

Lemma never_nil_check_later m k :
  never_nil k →
  never_nil (bind m (λ err, match err with Some e => ret (Some e) | None => k end)).
Proof.
  intros Hk w r w'. unfold bind. destruct (m w) as [|[e|] w1]; [done| |].
  - by intros [= <- _].
  - apply Hk.
Qed.

Lemma never_nil_Output env c e :
  fresh c → lookPathErr c = Some e → never_nil (errOf (Cmd_Output env c)).
Proof.
  intros [Hout _] Hlook w r w'. unfold errOf, Cmd_Output, launch. go_step.
  rewrite Hout, Hlook. simpl. by intros [= <- _].
Qed.

Lemma never_nil_pipe env c1 c2 e :
  fresh c1 → fresh c2 → lookPathErr c2 = Some e →
  never_nil (errOf (pipeCommands env [c1; c2])).
Proof.
  intros Hf1 Hf2 Hlook w r w'. unfold errOf, bind.
  destruct (pipeCommands_fresh_run env [c1; c2] w)
    as (r1 & w1 & -> & _ & _ & Hlast); [done| |].
  { constructor; [done|]. constructor; [done|]. constructor. }
  rewrite (Hlast c2 e eq_refl Hlook). by intros [= <- _].
Qed.

(** Without cfssljson, openssl or keytool on the path, [GenerateCerts]
    never returns nil, whatever the world and the behaviour of the tools
    that are there. *)
Theorem GenerateCerts_needs_its_tools
    (env : Env) (cfg certs ns cn : string) (w w' : World)
    (r : option error) (tool : string) (e : error) :
  tool ∈ ["cfssljson"; "openssl"; "keytool"] →
  lookPath env tool = Some e →
  GenerateCerts env cfg certs ns cn w = Ret r w' →
  r ≠ None.
Proof.
  intros Htool Hlook. revert w r w'.
  change (never_nil (GenerateCerts env cfg certs ns cn)).
  unfold GenerateCerts.
  do 2 (apply never_nil_bind; intros _). apply never_nil_check_later.
  apply elem_of_cons in Htool as [->|Htool].
  { apply never_nil_check_here.
    by apply (never_nil_pipe _ _ _ e); try apply exec_Command_fresh. }
  do 2 apply never_nil_check_later.
  apply elem_of_cons in Htool as [->|Htool].
  { apply never_nil_check_here.
    by apply (never_nil_Output _ _ e); try apply exec_Command_fresh. }
  do 3 apply never_nil_check_later.
  apply list_elem_of_singleton in Htool as ->.
  apply never_nil_check_here.
  by apply (never_nil_Output _ _ e); try apply exec_Command_fresh.
Qed.

Lemma GenerateCerts_needs_its_tools_example :
  GenerateCerts env_without_keytool "/cfg" "/certs" "logging" "prod" w_clean
  = Ret (Some (ErrNotFound "keytool"))
        (after (GenerateCerts env_without_keytool "/cfg" "/certs" "logging" "prod")
               w_clean)
  ∧ Some (ErrNotFound "keytool") ≠ None.
Proof.
  assert (Hrun : GenerateCerts env_without_keytool "/cfg" "/certs" "logging" "prod"
                   w_clean
                 = Ret (Some (ErrNotFound "keytool"))
                       (after (GenerateCerts env_without_keytool "/cfg" "/certs"
                                 "logging" "prod") w_clean))
    by (vm_compute; reflexivity).
  split; [exact Hrun|].
  eapply (GenerateCerts_needs_its_tools env_without_keytool "/cfg" "/certs"
            "logging" "prod" w_clean _ _ "keytool" (ErrNotFound "keytool")).
  - elem_here.
  - reflexivity.
  - exact Hrun.
Defined.

(** *** The secret of a cluster: create, exists, delete *)

Lemma append_inj_l (s a b : string) : s +:+ a = s +:+ b → a = b.
Proof. induction s as [|c s IH]; simpl; [done|]. intros [= H]. by apply IH. Qed.

Lemma secret_name_nonempty (s cn : string) :
  Nat.ltb 0 (String.length (s +:+ "-" +:+ cn)) = true.
Proof. by destruct s. Qed.

Lemma secret_key_inj (s ns cn ns' cn' : string) :
  (ns, s +:+ "-" +:+ cn) = (ns', s +:+ "-" +:+ cn') → ns = ns' ∧ cn = cn'.
Proof.
  intros [= -> H]. split; [done|]. apply append_inj_l in H. by injection H.
Qed.

Lemma CertsSecretExists_run env ns cn w :
  CertsSecretExists env ns cn w
  = Ret match w_secrets w !! (ns, secretName env +:+ "-" +:+ cn) with
        | Some s => Nat.ltb 0 (String.length (s_name s))
        | None => false
        end w.
Proof.
  unfold CertsSecretExists, Secrets_Get. go_step.
  destruct (w_secrets w !! _) as [s|]; simpl; [|done].
  by destruct (Nat.ltb 0 (String.length (s_name s))).
Qed.

Lemma CreateCertsSecret_effect env ns cn certs w :
  let name := secretName env +:+ "-" +:+ cn in
  ∃ r w', CreateCertsSecret env ns cn certs w = Ret r w'
    ∧ w_fs w' = w_fs w ∧ w_pipes w' = w_pipes w
    ∧ r = match (read_result w (certs // "node-keystore.jks")).2,
                (read_result w (certs // "sgadmin-keystore.jks")).2 with
          | Some e, _ | None, Some e => Some e
          | None, None =>
              match w_secrets w !! (ns, name) with
              | Some _ => Some (ErrAlreadyExists ns name)
              | None => None
              end
          end
    ∧ match r with
      | None => ∃ s, s_name s = name
                     ∧ w_secrets w' = <[(ns, name) := s]> (w_secrets w)
      | Some _ => w_secrets w' = w_secrets w
      end.
Proof.
  intros name. unfold CreateCertsSecret. cbv beta.
  read_step "node-keystore.jks" c1.
  destruct o as [e1|].
  { eexists _, _. split; [reflexivity|]. done. }
  read_step "sgadmin-keystore.jks" c2.
  destruct o as [e2|].
  { eexists _, _. split; [reflexivity|]. done. }
  read_step "truststore.jks" c3. read_step "ca.pem" c4. read_step "ca-key.pem" c5.
  read_step "node.pem" c6. read_step "node-key.pem" c7.
  read_step "node-key.pkcs8.pem" c8. read_step "sgadmin.pem" c9.
  read_step "sgadmin-key.pem" c10. read_step "kibana-key.pem" c11.
  read_step "kibana.pem" c12. read_step "cerebro-key.pem" c13.
  read_step "cerebro.pem" c14.
  unfold Secrets_Create. go_step. fold name.
  destruct (w_secrets w !! (ns, name)) as [old|] eqn:Hold; simpl.
  { eexists _, _. split; [reflexivity|]. done. }
  eexists _, _. split; [reflexivity|]. simpl. split_and!; try done.
  eexists. split; [|reflexivity]. done.
Qed.

(** After [CreateCertsSecret] returned nil, [CertsSecretExists] answers
    true for the same namespace and cluster, and answers for any other
    namespace or cluster what it answered before; the files and pipes are
    as they were.  [CertsSecretExists] itself changes nothing. *)
Theorem secret_exists_after_create
    (env : Env) (ns cn certs : string) (w w' : World) :
  CreateCertsSecret env ns cn certs w = Ret None w' →
  CertsSecretExists env ns cn w' = Ret true w'
  ∧ (∀ ns' cn' b, (ns', cn') ≠ (ns, cn) →
       CertsSecretExists env ns' cn' w = Ret b w →
       CertsSecretExists env ns' cn' w' = Ret b w')
  ∧ w_fs w' = w_fs w ∧ w_pipes w' = w_pipes w.
Proof.
  intros Hrun.
  destruct (CreateCertsSecret_effect env ns cn certs w)
    as (r & w1 & Hrun1 & Hfs & Hp & _ & Hcase).
  rewrite Hrun in Hrun1. injection Hrun1 as <- <-.
  destruct Hcase as (s & Hname & Hs). split_and!; try done.
  - rewrite CertsSecretExists_run, Hs, lookup_insert_eq, Hname.
    by rewrite secret_name_nonempty.
  - intros ns' cn' b Hne. rewrite !CertsSecretExists_run, Hs.
    rewrite lookup_insert_ne.
    + by intros [= ->].
    + intros Heq. apply secret_key_inj in Heq as [-> ->]. done.
Qed.

Lemma secret_exists_after_create_example :
  CertsSecretExists std_env "logging" "prod"
    (after (CreateCertsSecret std_env "logging" "prod" "/certs") w_partial)
  = Ret true (after (CreateCertsSecret std_env "logging" "prod" "/certs") w_partial).
Proof.
  destruct (secret_exists_after_create std_env "logging" "prod" "/certs" w_partial
              (after (CreateCertsSecret std_env "logging" "prod" "/certs") w_partial))
    as [H _]; [vm_compute; reflexivity|exact H].
Defined.

Lemma DeleteCertsSecret_effect env ns cn w w' r :
  DeleteCertsSecret env ns cn w = Ret r w' →
  w_secrets w' !! (ns, secretName env +:+ "-" +:+ cn) = None
  ∧ (r = None ↔ is_Some (w_secrets w !! (ns, secretName env +:+ "-" +:+ cn)))
  ∧ (∀ k, k ≠ (ns, secretName env +:+ "-" +:+ cn) →
          w_secrets w' !! k = w_secrets w !! k)
  ∧ w_fs w' = w_fs w ∧ w_pipes w' = w_pipes w.
Proof.
  unfold DeleteCertsSecret, Secrets_Delete. go_step.
  destruct (w_secrets w !! (ns, secretName env +:+ "-" +:+ cn)) as [s|] eqn:Hs;
    simpl; intros [= <- <-]; simpl.
  - rewrite lookup_delete_eq.
    split_and!; [done|by split; eauto| |done|done].
    intros k Hk. by rewrite lookup_delete_ne.
  - split_and!; [done| |done|done|done].
    split; [done|]. by intros [? ?].
Qed.



(** A bundle can be created again after it was deleted: when both
    keystores can be read, [CreateCertsSecret] right after
    [DeleteCertsSecret] returns nil, whether or not a secret was there
    before; without the deletion a second creation is refused by the
    store and the first bundle stays. *)
Theorem recreate_after_delete
    (env : Env) (ns cn certs : string) (w w1 : World) (r : option error) :
  (read_result w (certs // "node-keystore.jks")).2 = None →
  (read_result w (certs // "sgadmin-keystore.jks")).2 = None →
  DeleteCertsSecret env ns cn w = Ret r w1 →
  (∃ w2, CreateCertsSecret env ns cn certs w1 = Ret None w2)
  ∧ ∀ w2, CreateCertsSecret env ns cn certs w = Ret None w2 →
          ∃ w3, CreateCertsSecret env ns cn certs w2
                  = Ret (Some (ErrAlreadyExists ns (secretName env +:+ "-" +:+ cn))) w3
              ∧ w_secrets w3 = w_secrets w2.
Proof.
  intros Hn Hs Hdel. split.
  - destruct (DeleteCertsSecret_effect env ns cn w w1 r Hdel)
      as (Hgone & _ & _ & Hfs & _).
    destruct (CreateCertsSecret_effect env ns cn certs w1)
      as (r2 & w2 & Hrun & _ & _ & Hr & _).
    unfold read_result in Hr. rewrite Hfs in Hr. fold (read_result w) in Hr.
    unfold read_result in Hn, Hs. rewrite Hn, Hs, Hgone in Hr. subst r2.
    by exists w2.
  - intros w2 Hrun.
    destruct (CreateCertsSecret_effect env ns cn certs w)
      as (r1 & w2' & Hrun1 & Hfs & _ & _ & Hcase).
    rewrite Hrun in Hrun1. injection Hrun1 as <- <-.
    destruct Hcase as (s & _ & Hstore).
    destruct (CreateCertsSecret_effect env ns cn certs w2)
      as (r3 & w3 & Hrun3 & _ & _ & Hr & Hcase3).
    unfold read_result in Hr. rewrite Hfs in Hr.
    unfold read_result in Hn, Hs. rewrite Hn, Hs in Hr.
    rewrite Hstore, lookup_insert_eq in Hr. subst r3.
    by exists w3.
Qed.

Lemma recreate_after_delete_example :
  ∃ w2, CreateCertsSecret std_env "logging" "prod" "/certs"
          (after (DeleteCertsSecret std_env "logging" "prod") w_partial)
        = Ret None w2.
Proof.
  destruct (recreate_after_delete std_env "logging" "prod" "/certs" w_partial
              (after (DeleteCertsSecret std_env "logging" "prod") w_partial)
              (Some (ErrNotExist ("logging" // "es-certs-prod"))))
    as [H _]; [reflexivity|reflexivity|vm_compute; reflexivity|exact H].
Defined.

(** *** The errors of a provisioning run *)









